(** * MedBot narrowing engine (src/main.py): model and properties

    A shallow embedding of the text normalizer [clean_text], the symptom
    extractor [extract_symptoms_from_infobox], the pool builder
    [search_candidate_diseases] and the interactive loop [main].

    Python [str] values are modelled by [string].  The character classes the
    program relies on ([str.lower], white space for [str.split]/[str.strip],
    and the case folding of [re.IGNORECASE]) are given on the ASCII range;
    characters above it are caseless symbols.  The two built-ins applied to
    a token of the user, [str.isdigit] and [int], are parameters of the
    engine, as are the network and the HTML parser: [int] raises on some
    strings that [str.isdigit] accepts. *)

From Stdlib Require Import String Ascii ZArith NArith Lia Bool.
From stdpp Require Import base list strings sorting gmap.

Local Open Scope string_scope.
Local Open Scope list_scope.

(** ** Characters *)

Module Char.

Definition code (c : ascii) : nat := nat_of_ascii c.

Definition is_upper (c : ascii) : bool :=
  (65 <=? code c)%nat && (code c <=? 90)%nat.

(** [str.lower] on one character. *)
Definition lower (c : ascii) : ascii :=
  if is_upper c then ascii_of_nat (code c + 32) else c.

(** Equality of two characters under [re.IGNORECASE]. *)
Definition eqb_ci (a b : ascii) : bool := Ascii.eqb (lower a) (lower b).

Definition is_digit (c : ascii) : bool :=
  (48 <=? code c)%nat && (code c <=? 57)%nat.

(** White space as [str.split()] and [str.strip()] see it. *)
Definition is_space (c : ascii) : bool :=
  ((9 <=? code c)%nat && (code c <=? 13)%nat)
  || ((28 <=? code c)%nat && (code c <=? 32)%nat).

Definition newline : ascii := ascii_of_nat 10.
Definition tab : ascii := ascii_of_nat 9.

Definition is_newline (c : ascii) : bool := Ascii.eqb c newline.

End Char.

(** ** Strings *)

Module Str.

Fixpoint lower (s : string) : string :=
  match s with
  | EmptyString => EmptyString
  | String c s' => String (Char.lower c) (lower s')
  end.

Fixpoint lstrip (p : ascii -> bool) (s : string) : string :=
  match s with
  | EmptyString => EmptyString
  | String c s' => if p c then lstrip p s' else s
  end.

Fixpoint rstrip (p : ascii -> bool) (s : string) : string :=
  match s with
  | EmptyString => EmptyString
  | String c s' =>
      match rstrip p s' with
      | EmptyString => if p c then EmptyString else String c EmptyString
      | r => String c r
      end
  end.

(** [s.strip(chars)], the set [chars] given as a predicate. *)
Definition strip (p : ascii -> bool) (s : string) : string :=
  rstrip p (lstrip p s).

(** [s.replace(",", " ")]. *)
Fixpoint replace_char (a b : ascii) (s : string) : string :=
  match s with
  | EmptyString => EmptyString
  | String c s' =>
      String (if Ascii.eqb c a then b else c) (replace_char a b s')
  end.

(** Splitting at every character of a class: [re.split(r"[;,]", s)].
    The result always has one more element than there are separators. *)
Fixpoint split_on (p : ascii -> bool) (s : string) : list string :=
  match s with
  | EmptyString => [EmptyString]
  | String c s' =>
      if p c then EmptyString :: split_on p s'
      else match split_on p s' with
           | w :: ws => String c w :: ws
           | [] => [String c EmptyString]
           end
  end.

(** [s.split()]: maximal runs of characters that are not white space. *)
Fixpoint split_ws (s : string) : list string :=
  match s with
  | EmptyString => []
  | String c s' =>
      if Char.is_space c then split_ws s'
      else match s' with
           | EmptyString => [String c EmptyString]
           | String c' _ =>
               if Char.is_space c' then String c EmptyString :: split_ws s'
               else match split_ws s' with
                    | w :: ws => String c w :: ws
                    | [] => [String c EmptyString]
                    end
           end
  end.

(** [s.isdigit()]: non-empty and every character a digit. *)
Fixpoint all_digits (s : string) : bool :=
  match s with
  | EmptyString => true
  | String c s' => Char.is_digit c && all_digits s'
  end.

Definition isdigit (s : string) : bool :=
  match s with
  | EmptyString => false
  | _ => all_digits s
  end.

(** [int(s)] for a string of digits, most significant digit first. *)
Fixpoint int_acc (acc : Z) (s : string) : Z :=
  match s with
  | EmptyString => acc
  | String c s' => int_acc (10 * acc + (Z.of_nat (Char.code c) - 48)) s'
  end.

Definition int (s : string) : Z := int_acc 0 s.

(** Case-insensitive test that [lit] is a prefix of [s]. *)
Fixpoint prefix_ci (lit s : string) : bool :=
  match lit, s with
  | EmptyString, _ => true
  | String a lit', String b s' => Char.eqb_ci b a && prefix_ci lit' s'
  | String _ _, EmptyString => false
  end.

Fixpoint skipn (n : nat) (s : string) : string :=
  match n, s with
  | O, _ => s
  | S n', String _ s' => skipn n' s'
  | S _, EmptyString => EmptyString
  end.

Fixpoint mem (c : ascii) (s : string) : bool :=
  match s with
  | EmptyString => false
  | String a s' => Ascii.eqb a c || mem c s'
  end.

End Str.

(** ** Regular expressions

    The fragment of Python's [re] syntax that the program uses, matched the
    way the backtracking engine does: alternatives are tried left to right
    and [.*?] tries the shortest extension first.  The matcher is written in
    continuation-passing style; it returns the number of characters the
    match consumed. *)

Module Re.

Inductive regex :=
| Lit (c : ascii)          (* a literal character, under re.IGNORECASE *)
| Dots                     (* .*?  (the dot does not match a newline) *)
| Seq (r1 r2 : regex)
| Alt (r1 r2 : regex).

Fixpoint lazy_dots (k : string -> option nat) (s : string) : option nat :=
  match k s with
  | Some n => Some n
  | None =>
      match s with
      | EmptyString => None
      | String c s' =>
          if Char.is_newline c then None else S <$> lazy_dots k s'
      end
  end.

Fixpoint matchk (r : regex) (k : string -> option nat) (s : string)
  : option nat :=
  match r with
  | Lit c =>
      match s with
      | String a s' => if Char.eqb_ci a c then S <$> k s' else None
      | EmptyString => None
      end
  | Dots => lazy_dots k s
  | Seq r1 r2 => matchk r1 (matchk r2 k) s
  | Alt r1 r2 =>
      match matchk r1 k s with
      | Some n => Some n
      | None => matchk r2 k s
      end
  end.

(** A match of [r] anchored at the start of [s]: its length. *)
Definition match_at (r : regex) (s : string) : option nat :=
  matchk r (fun _ => Some O) s.

(** [re.search(r, s) is not None]. *)
Fixpoint search (r : regex) (s : string) : bool :=
  match match_at r s with
  | Some _ => true
  | None =>
      match s with
      | EmptyString => false
      | String _ s' => search r s'
      end
  end.

(** [re.sub(r, "", s)]: scan left to right; where [r] matches, drop the
    match and go on after it, otherwise keep the character.  [skip] counts
    the characters of the current match that are still to be dropped. *)
Fixpoint sub_from (r : regex) (skip : nat) (s : string) : string :=
  match s with
  | EmptyString => EmptyString
  | String c s' =>
      match skip with
      | S k => sub_from r k s'
      | O =>
          match match_at r s with
          | Some (S n) => sub_from r n s'
          | _ => String c (sub_from r O s')
          end
      end
  end.

Definition sub (r : regex) (s : string) : string := sub_from r O s.

Fixpoint lits (s : string) (r : regex) : regex :=
  match s with
  | EmptyString => r
  | String c s' => Seq (Lit c) (lits s' r)
  end.

(** [\[.*?\]] *)
Definition citation : regex := Seq (Lit "[") (Seq Dots (Lit "]")).

(** [\(.*?see.*?\)] *)
Definition see_note : regex :=
  Seq (Lit "(") (Seq Dots (lits "see" (Seq Dots (Lit ")")))).

(** [\[.*?\]|\(.*?see.*?\)] *)
Definition noise : regex := Alt citation see_note.

(** No literal of [r] is a newline. *)
Fixpoint nl_free (r : regex) : bool :=
  match r with
  | Lit c => negb (Char.is_newline c)
  | Dots => true
  | Seq r1 r2 | Alt r1 r2 => nl_free r1 && nl_free r2
  end.

(** The first [n] characters of [s] are there and none is a newline. *)
Fixpoint line_prefix (n : nat) (s : string) : bool :=
  match n, s with
  | O, _ => true
  | S n', String c s' => negb (Char.is_newline c) && line_prefix n' s'
  | S _, EmptyString => false
  end.

(** A "]" comes before the end of the line. *)
Fixpoint closes (s : string) : bool :=
  match s with
  | EmptyString => false
  | String c s' =>
      if Ascii.eqb c "]" then true
      else if Char.is_newline c then false
      else closes s'
  end.

(** Some "[" of [s] is closed on its line: what a match of [citation]
    somewhere in [s] comes to. *)
Fixpoint has_citation (s : string) : bool :=
  match s with
  | EmptyString => false
  | String c s' => (Ascii.eqb c "[" && closes s') || has_citation s'
  end.

End Re.

(** What a successful match consumed lies on one line, and the
    continuation succeeded on what is left. *)
Definition consumed (k : string -> option nat) (s : string) (n : nat)
  : Prop :=
  ∃ m n', n = (m + n')%nat ∧ Re.line_prefix m s = true ∧
          k (Str.skipn m s) = Some n'.

(** ** The text normalizer *)

(** The character set of [txt.strip(" .\n\t;")]. *)
Definition trim_char (c : ascii) : bool :=
  Ascii.eqb c " " || Ascii.eqb c "." || Ascii.eqb c Char.newline
  || Ascii.eqb c Char.tab || Ascii.eqb c ";".

Definition clean_text (txt : string) : string :=
  let txt := Re.sub Re.noise txt in
  Str.strip trim_char txt.

(** ** The symptom extractor *)

(** What the BeautifulSoup queries of the extractor return for a page: the
    value cell of the infobox row labelled "Symptoms", seen through the two
    calls made on it. *)
Record td_cell := {
  li_texts : list string;   (* li.get_text() for li in td.find_all("li") *)
  sep_text : string         (* td.get_text(separator=";") *)
}.

Inductive soup :=
| NoInfobox                 (* soup.find("table", {"class":"infobox"}) is None *)
| NoSymptomsRow             (* no th whose text contains "Symptoms" *)
| NoValueCell               (* th.find_next_sibling("td") is None *)
| SymptomsCell (td : td_cell).

Definition len_ok (t : string) : bool :=
  (3 <=? String.length t)%nat && (String.length t <=? 60)%nat.

(** [re.match(r"^(some cases|recurring|latent)", t, re.IGNORECASE)]. *)
Definition boilerplate (t : string) : bool :=
  Str.prefix_ci "some cases" t || Str.prefix_ci "recurring" t
  || Str.prefix_ci "latent" t.

Definition is_semi_comma (c : ascii) : bool :=
  Ascii.eqb c ";" || Ascii.eqb c ",".

(** The body shared by the two loops: normalize, test, lower-case. *)
Definition keep_items (ok : string -> bool) (parts : list string)
  : list string :=
  omap (fun part =>
          let t := clean_text part in
          if ok t then Some (Str.lower t) else None) parts.

(** [list(dict.fromkeys(items))]: the keys in order of first insertion. *)
Definition dict_fromkeys (items : list string) : list string :=
  fold_left (fun keys x => if decide (x ∈ keys) then keys else keys ++ [x])
            items [].

(** One insertion of [dict.fromkeys]. *)
Definition add_key (keys : list string) (x : string) : list string :=
  if decide (x ∈ keys) then keys else keys ++ [x].

Definition extract_from_soup (sp : soup) : list string :=
  match sp with
  | NoInfobox | NoSymptomsRow | NoValueCell => []
  | SymptomsCell td =>
      let items := keep_items len_ok (li_texts td) in
      let items :=
        if (length items <? 4)%nat then
          let raw := sep_text td in
          items ++ keep_items (fun t => len_ok t && negb (boilerplate t))
                              (Str.split_on is_semi_comma raw)
        else items in
      dict_fromkeys items
  end.

(** ** Candidates and the engine state *)

Record candidate := { name : string; symptoms : list string }.

Global Instance candidate_eq_dec : EqDecision candidate.
Proof. solve_decision. Defined.

Record state := { selected : list string; remaining : list candidate }.

Definition initial_state : state := {| selected := []; remaining := [] |}.

(** The checklist: [sorted({s for d in remaining for s in d["symptoms"]
    if s not in selected})]. *)
Definition unseen (st : state) : gset string :=
  list_to_set
    (d ← remaining st;
     filter (fun s => s ∉ selected st) (symptoms d)).

Definition next_syms (st : state) : list string :=
  merge_sort String.le (elements (unseen st)).

(** The test of the filtering loop:
    [not d["symptoms"] or sym in d["symptoms"]]. *)
Definition keeps (sym : string) (d : candidate) : Prop :=
  symptoms d = [] ∨ sym ∈ symptoms d.

Global Instance keeps_dec sym d : Decision (keeps sym d).
Proof. unfold keeps. apply _. Defined.

(** What the program prints. *)
Inductive msg :=
| Banner
| Checklist (items : list string)
| Prompt (first : bool)
| InvalidNumber (tok : string)
| NoPagesFound (sym : string)
| Loaded (sym : string) (n : nat)
| AlreadyAdded (sym : string)
| Remain (sym : string) (n : nat)
| NoDiseasesMatch (sel : list string)
| Blank
| FinalDiagnosis (nm : string)
| UnableToNarrow (names : list string)
| FinalShortlist (names : list string).

(** How a run ends. *)
Inductive status :=
| Return                    (* main returns *)
| SysExit1                  (* sys.exit(1) *)
| EOFError                  (* input() finds no more lines *)
| RequestError              (* the search request raises *)
| ValueError.               (* int(tok) raises *)

(** The state after a token: the loop goes on, or the run stops there. *)
Inductive flow :=
| Next (st : state)
| Halt (st : state) (e : status).

Definition flow_state (f : flow) : state :=
  match f with Next st | Halt st _ => st end.

(** Candidates of [pool] that a run keeps once the symptoms [rest] have
    been selected after the seed. *)
Definition consistent (rest : list string) (d : candidate) : Prop :=
  symptoms d = [] ∨ Forall (fun s => s ∈ symptoms d) rest.

Global Instance consistent_dec rest d : Decision (consistent rest d).
Proof. unfold consistent. apply _. Defined.

(** The last line a run may print, by the way it ends. *)
Definition closing (e : status) (m : msg) : Prop :=
  match e, m with
  | Return, (FinalDiagnosis _ | UnableToNarrow _ | FinalShortlist _) => True
  | SysExit1, (NoPagesFound _ | NoDiseasesMatch _) => True
  | EOFError, Prompt _ => True
  | _, _ => False
  end.

(** The pool of a state that is still running is empty only before the
    seed; a run stopped by [sys.exit(1)] has an empty pool. *)
Definition pool_alive (f : flow) : Prop :=
  match f with
  | Next st => selected st ≠ [] -> remaining st ≠ []
  | Halt st SysExit1 => remaining st = []
  | Halt _ _ => True
  end.

(** ** The pool builder and the interactive loop *)

Section World.

(** The encyclopedia: the search request (None when it raises), the page
    fetch (None when it raises) and the HTML parser (None when it rejects
    the markup and raises).  The titles of one search are distinct pages,
    each fetched once, so the page of a title is a function of the
    title. *)
Variable wiki_search : string -> nat -> option (list string).
Variable fetch_page : string -> option string.
Variable BeautifulSoup : string -> option soup.

(** The built-ins [str.isdigit] and [int] on a token ([int] gives None when
    it raises [ValueError]); they are taken as they are, on all text. *)
Variable isdigit : string -> bool.
Variable int : string -> option Z.

(** The symptoms of a page, None when the parser raises. *)
Definition extract_symptoms_from_infobox (html : string)
  : option (list string) :=
  extract_from_soup <$> BeautifulSoup html.

(** The [try] block covers the fetch and the extraction: a page for which
    either raises is skipped. *)
Definition search_candidate_diseases (symptom : string) (limit : nat)
  : option (list candidate) :=
  titles ← wiki_search symptom limit;
  Some (title ← titles;
        match fetch_page title with
        | Some html =>
            match extract_symptoms_from_infobox html with
            | Some syms => [{| name := title; symptoms := syms |}]
            | None => []
            end
        | None => []
        end).

(** The symptoms read from the page of a title, None when the fetch or
    the parser raises. *)
Definition page_symptoms (title : string) : option (list string) :=
  html ← fetch_page title; extract_symptoms_from_infobox html.

(** What a token stands for. *)
Inductive resolved :=
| Sym (sym : string)        (* a symptom: the token itself or an entry *)
| OutOfRange                (* a number outside the checklist *)
| IntError.                 (* int(tok) raised *)

Definition resolve (ns : list string) (st : state) (tok : string)
  : resolved :=
  if isdigit tok && bool_decide (selected st ≠ [])
     && bool_decide (ns ≠ [])
  then
    match int tok with
    | None => IntError
    | Some n =>
        let idx := (n - 1)%Z in
        if bool_decide (0 ≤ idx < Z.of_nat (length ns))%Z
        then match ns !! Z.to_nat idx with
             | Some sym => Sym sym
             | None => OutOfRange
             end
        else OutOfRange
    end
  else Sym tok.

(** The two branches under "FIRST symptom" and "SUBSEQUENT": what a
    resolved symptom does to the state. *)
Definition apply_symptom (st : state) (sym : string) : list msg * flow :=
  match selected st with
  | [] =>
      let st1 := {| selected := [sym]; remaining := remaining st |} in
      match search_candidate_diseases sym 100 with
      | None => ([], Halt st1 RequestError)
      | Some pool =>
          let st2 := {| selected := [sym]; remaining := pool |} in
          match pool with
          | [] => ([NoPagesFound sym], Halt st2 SysExit1)
          | _ => ([Loaded sym (length pool)], Next st2)
          end
      end
  | _ =>
      if decide (sym ∈ selected st) then ([AlreadyAdded sym], Next st)
      else
        let new_rem := filter (keeps sym) (remaining st) in
        let sel := selected st ++ [sym] in
        let st' := {| selected := sel; remaining := new_rem |} in
        match new_rem with
        | [] => ([Remain sym 0; NoDiseasesMatch sel], Halt st' SysExit1)
        | _ => ([Remain sym (length new_rem)], Next st')
        end
  end.

(** One pass of the body of [for tok in tokens]. *)
Definition token_step (ns : list string) (st : state) (tok : string)
  : list msg * flow :=
  match resolve ns st tok with
  | IntError => ([], Halt st ValueError)
  | OutOfRange => ([InvalidNumber tok], Next st)
  | Sym sym => apply_symptom st sym
  end.

(** The loop [for tok in tokens], with the checklist [ns] of the round. *)
Fixpoint process_tokens (ns : list string) (st : state)
    (tokens : list string) : list msg * flow :=
  match tokens with
  | [] => ([], Next st)
  | tok :: rest =>
      match token_step ns st tok with
      | (out, Next st') =>
          let '(out', f) := process_tokens ns st' rest in
          (out ++ out', f)
      | (out, Halt st' e) => (out, Halt st' e)
      end
  end.

(** The two termination tests made at the top of every round. *)
Definition termination (st : state) : option msg :=
  let ns := next_syms st in
  if bool_decide (length (remaining st) = 1%nat) && bool_decide (ns = [])
     && bool_decide (selected st ≠ [])
  then
    match remaining st with
    | d :: _ => Some (FinalDiagnosis (name d))
    | [] => None
    end
  else if bool_decide (remaining st ≠ []) && bool_decide (ns = [])
          && bool_decide (selected st ≠ [])
  then Some (UnableToNarrow (name <$> remaining st))
  else None.

(** The code after the loop, reached by typing "done". *)
Definition final_report (st : state) : msg :=
  match remaining st with
  | [d] => FinalDiagnosis (name d)
  | ds => FinalShortlist (name <$> ds)
  end.

(** The tokens of one line of input, after [.strip().lower()]. *)
Definition normalize_input (line : string) : string :=
  Str.lower (Str.strip Char.is_space line).

Definition tokenize (user_in : string) : list string :=
  Str.split_ws (Str.replace_char "," " " user_in).

(** The [while True] loop; [lines] is what [input()] will return. *)
Fixpoint main_loop (lines : list string) (st : state) : list msg * status :=
  match termination st with
  | Some m => ([m], Return)
  | None =>
      let ns := next_syms st in
      let shown :=
        if bool_decide (selected st ≠ []) && bool_decide (ns ≠ [])
        then [Checklist ns] else [] in
      let asked := shown ++ [Prompt (bool_decide (selected st = []))] in
      match lines with
      | [] => (asked, EOFError)
      | line :: rest =>
          let user_in := normalize_input line in
          if String.eqb user_in "done"
          then (asked ++ [final_report st], Return)
          else
            match process_tokens ns st (tokenize user_in) with
            | (out, Next st') =>
                let '(out', e) := main_loop rest st' in
                (asked ++ out ++ Blank :: out', e)
            | (out, Halt _ e) => (asked ++ out, e)
            end
      end
  end.

Definition main (lines : list string) : list msg * status :=
  let '(out, e) := main_loop lines initial_state in
  (Banner :: out, e).

(** The states a run goes through: the start, and the state after any
    batch of tokens read in a round that did not terminate. *)
Inductive reachable : flow -> Prop :=
| reach_init : reachable (Next initial_state)
| reach_batch st tokens out f :
    reachable (Next st) ->
    termination st = None ->
    process_tokens (next_syms st) st tokens = (out, f) ->
    reachable f.

(** What is printed before [input()] is called: the checklist, when there
    is one to show, and the prompt. *)
Definition prompt_lines (st : state) : list msg :=
  (if bool_decide (selected st ≠ []) && bool_decide (next_syms st ≠ [])
   then [Checklist (next_syms st)] else [])
  ++ [Prompt (bool_decide (selected st = []))].

(** A numeric token that the loop reads as an index, that [int] can read,
    and that is out of range. *)
Definition out_of_range (ns : list string) (st : state) (tok : string)
  : Prop :=
  isdigit tok = true ∧ selected st ≠ [] ∧ ns ≠ [] ∧
  ∃ n, int tok = Some n ∧ ¬ (1 ≤ n ≤ Z.of_nat (length ns))%Z.

(** The pool of [st] is what is left of the seed pool. *)
Definition pool_exact (st : state) : Prop :=
  ∀ s0 rest pool0,
    selected st = s0 :: rest ->
    search_candidate_diseases s0 100 = Some pool0 ->
    remaining st = filter (consistent rest) pool0.

(** A transition other than the seed: a pass of the token loop made when
    something is already selected, whatever the checklist of the round. *)
Definition filter_step (st st' : state) : Prop :=
  selected st ≠ [] ∧
  ∃ ns tok out f, token_step ns st tok = (out, f) ∧ st' = flow_state f.

End World.

(** The pool invariant as the data model words it, and the one that leaves
    the seed symptom out. *)
Definition pool_invariant (st : state) : Prop :=
  ∀ d, d ∈ remaining st →
    symptoms d = [] ∨ ∀ s, s ∈ selected st → s ∈ symptoms d.

Definition pool_invariant_past_seed (st : state) : Prop :=
  ∀ d, d ∈ remaining st →
    symptoms d = [] ∨ ∀ s, s ∈ tail (selected st) → s ∈ symptoms d.

(** The checklist as the design document words it:
    [sorted(unique(s for c in remaining for s in c.symptoms
    if s ∉ selected))]. *)
Definition spec_next_symptoms (st : state) : list string :=
  merge_sort String.le
    (remove_dups (c ← remaining st;
                  s ← symptoms c;
                  if decide (s ∈ selected st) then [] else [s])).

(** A word of a split: its characters are not white space and come from
    the string that was split. *)
Definition word_of (s w : string) : Prop :=
  w ≠ "" ∧ ∀ a, Str.mem a w = true ->
                Char.is_space a = false ∧ Str.mem a s = true.

(** ** The page cache *)

Definition CACHE_DIR : string :=
  "/storage/emulated/0/2030/AI/14 Python/Engine 1.8/cache".
Definition WIKI_BASE : string := "https://en.wikipedia.org/wiki/".

(** [os.path.join(a, b)] on a POSIX system. *)
Definition os_path_join (a b : string) : string :=
  if String.prefix "/" b then b
  else if String.eqb a "" then b
  else if Ascii.eqb (default " "%char (last (list_ascii_of_string a))) "/"
       then a +:+ b
       else a +:+ "/" +:+ b.

(** [title.replace(" ", "_") + ".html"] *)
Definition page_file (title : string) : string :=
  Str.replace_char " " "_" title +:+ ".html".

Definition page_path (title : string) : string :=
  os_path_join CACHE_DIR (page_file title).

Definition page_url (title : string) : string := WIKI_BASE +:+ page_file title.

Definition carriage_return : ascii := ascii_of_nat 13.

(** What reading a file opened in text mode does to line endings: a
    carriage return followed by a newline, and a carriage return alone,
    are read as one newline. *)
Fixpoint universal_newlines (s : string) : string :=
  match s with
  | EmptyString => EmptyString
  | String c s' =>
      if Ascii.eqb c carriage_return then
        match s' with
        | String c' s'' =>
            if Ascii.eqb c' Char.newline
            then String Char.newline (universal_newlines s'')
            else String Char.newline (universal_newlines s')
        | EmptyString => String Char.newline EmptyString
        end
      else String c (universal_newlines s')
  end.

Module Cache.
Section Cache.

(** The file system and the network, as [fetch_page] uses them:
    [os.path.exists]; the text a file holds, decoded and before the
    translation of line endings (None when opening or decoding it raises);
    writing a file with [open(path, "w")] (which may fail, and may change
    the file system even then); and [requests.get] followed by
    [raise_for_status] (None when either raises). *)
Variable FS : Type.
Variable path_exists : FS -> string -> bool.
Variable file_text : FS -> string -> option string.
Variable write_text : FS -> string -> string -> bool * FS.
Variable http_get : string -> option string.

(** [open(path, encoding="utf-8").read()] *)
Definition read_text (fs : FS) (path : string) : option string :=
  universal_newlines <$> file_text fs path.

(** The page or None when an exception is raised, and the file system
    afterwards. *)
Definition fetch_page (fs : FS) (title : string) : option string * FS :=
  let path := page_path title in
  if path_exists fs path then (read_text fs path, fs)
  else
    match http_get (page_url title) with
    | None => (None, fs)
    | Some html =>
        match write_text fs path html with
        | (true, fs') => (Some html, fs')
        | (false, fs') => (None, fs')
        end
    end.

End Cache.
End Cache.

(** A small encyclopedia for the examples: every search finds the pages
    A, B and C; A and B have an infobox list, C has no infobox. *)
Module Demo.

Definition wiki_search (symptom : string) (limit : nat)
  : option (list string) := Some ["A"; "B"; "C"].

Definition fetch_page (title : string) : option string := Some title.

Definition BeautifulSoup (html : string) : option soup :=
  if String.eqb html "A" then
    Some (SymptomsCell
            {| li_texts := ["Cough"; "Chills"; "Headache"; "Nausea"];
               sep_text := "Cough;Chills;Headache;Nausea" |})
  else if String.eqb html "B" then
    Some (SymptomsCell
            {| li_texts := ["Cough"; "Rash"; "Headache"; "Nausea"];
               sep_text := "Cough;Rash;Headache;Nausea" |})
  else Some NoInfobox.

(** The two built-ins on strings of ASCII digits, the strings the examples
    apply them to: [int] reads a string of at most 4300 digits, and raises
    on a longer one (the default of [sys.int_max_str_digits], from
    Python 3.11 on). *)
Definition isdigit (tok : string) : bool := Str.isdigit tok.

Definition int (tok : string) : option Z :=
  if (String.length tok <=? 4300)%nat then Some (Str.int tok) else None.

(** A token of 4301 digits. *)
Fixpoint ones (n : nat) : string :=
  match n with
  | O => EmptyString
  | S n' => String "1" (ones n')
  end.
Definition long_number : string := ones 4301.

Definition A : candidate :=
  {| name := "A"; symptoms := ["cough"; "chills"; "headache"; "nausea"] |}.
Definition B : candidate :=
  {| name := "B"; symptoms := ["cough"; "rash"; "headache"; "nausea"] |}.
Definition C : candidate := {| name := "C"; symptoms := [] |}.

(** After the seed "fever", and after "chills" has then been selected. *)
Definition seeded : state :=
  {| selected := ["fever"]; remaining := [A; B; C] |}.
Definition narrowed : state :=
  {| selected := ["fever"; "chills"]; remaining := [A; C] |}.

(** The checklist shown after the seed. *)
Definition checklist : list string :=
  ["chills"; "cough"; "headache"; "nausea"; "rash"].

(** Pools whose candidates have no symptom data. *)
Definition sole : state :=
  {| selected := ["fever"]; remaining := [C] |}.
Definition tied : state :=
  {| selected := ["fever"];
     remaining := [C; {| name := "D"; symptoms := [] |}] |}.

(** A cell with no list items, and a cell whose list is long enough. *)
Definition prose_cell : td_cell :=
  {| li_texts := []; sep_text := "Fever, Latent TB; rash" |}.
Definition list_cell : td_cell :=
  {| li_texts := ["Cough"; "Chills"; "Headache"; "Nausea"];
     sep_text := "Cough;Chills;Headache;Nausea" |}.


(** A file system kept as a list of paths with their text, newest first,
    and a network that serves one page for every address. *)
Definition files : Type := list (string * string).
Definition file_text (fs : files) (path : string) : option string :=
  snd <$> find (fun e => String.eqb path e.1) fs.
Definition path_exists (fs : files) (path : string) : bool :=
  bool_decide (is_Some (file_text fs path)).
Definition write_text (fs : files) (path text : string) : bool * files :=
  (true, (path, text) :: fs).

(** A network that serves a page with a Windows line ending, and one that
    is down. *)
Definition page : string :=
  String "a" (String carriage_return (String Char.newline "b")).
Definition http_get (url : string) : option string := Some page.
Definition http_down (url : string) : option string := None.

End Demo.

(** * Properties *)

Example clean_text_ex1 :
  clean_text " Fever[1]; (see also Cough). " = "Fever".
Proof. reflexivity. Qed.

Example clean_text_ex2 : clean_text "(s[x]ee)" = "(see)".
Proof. reflexivity. Qed.

Example split_ws_ex : Str.split_ws "  a bc   d " = ["a"; "bc"; "d"].
Proof. reflexivity. Qed.

Example split_on_ex :
  Str.split_on (fun c => Ascii.eqb c ";" || Ascii.eqb c ",") "a;b,,c;"
  = ["a"; "b"; ""; "c"; ""].
Proof. reflexivity. Qed.

(** ** Characters *)

Ltac by_cases_on_char c :=
  destruct c as [[] [] [] [] [] [] [] []]; vm_compute; try reflexivity;
  try discriminate; auto.

Lemma lower_idem c : Char.lower (Char.lower c) = Char.lower c.
Proof. by_cases_on_char c. Qed.

Lemma lower_is_newline c : Char.is_newline (Char.lower c) = Char.is_newline c.
Proof. by_cases_on_char c. Qed.

Lemma lower_is_open c : Ascii.eqb (Char.lower c) "[" = Ascii.eqb c "[".
Proof. by_cases_on_char c. Qed.

Lemma lower_is_close c : Ascii.eqb (Char.lower c) "]" = Ascii.eqb c "]".
Proof. by_cases_on_char c. Qed.

Lemma eqb_ci_open c : Char.eqb_ci c "[" = Ascii.eqb c "[".
Proof. by_cases_on_char c. Qed.

Lemma eqb_ci_close c : Char.eqb_ci c "]" = Ascii.eqb c "]".
Proof. by_cases_on_char c. Qed.

Lemma eqb_ci_paren c : Char.eqb_ci c "(" = Ascii.eqb c "(".
Proof. by_cases_on_char c. Qed.

Lemma eqb_ci_newline a c :
  Char.eqb_ci a c = true -> Char.is_newline c = false ->
  Char.is_newline a = false.
Proof.
  unfold Char.eqb_ci. intros H%Ascii.eqb_eq Hc.
  rewrite <- lower_is_newline, H, lower_is_newline. exact Hc.
Qed.

(** ** The matcher *)

Lemma skipn_add m1 m2 s :
  Str.skipn (m1 + m2) s = Str.skipn m2 (Str.skipn m1 s).
Proof.
  revert s. induction m1 as [|m1 IH]; intros s; [done|].
  destruct s as [|c s]; simpl; [by destruct m2|apply IH].
Qed.

Lemma line_prefix_add m1 m2 s :
  Re.line_prefix m1 s = true ->
  Re.line_prefix m2 (Str.skipn m1 s) = true ->
  Re.line_prefix (m1 + m2) s = true.
Proof.
  revert s. induction m1 as [|m1 IH]; intros s; [done|].
  destruct s as [|c s]; simpl; [done|].
  intros [Hc H1]%andb_true_iff H2. rewrite Hc. simpl. by apply IH.
Qed.


Lemma consumed_here (k : string -> option nat) s n :
  k s = Some n -> consumed k s n.
Proof. intros H. by exists 0%nat, n. Qed.

Lemma consumed_step (k : string -> option nat) c s n :
  Char.is_newline c = false -> consumed k s n ->
  consumed k (String c s) (S n).
Proof.
  intros Hc (m & n' & -> & Hm & Hk). exists (S m), n'.
  split_and!; [done| |done]. simpl. by rewrite Hc.
Qed.

Lemma consumed_seq (k1 k2 : string -> option nat) s n :
  consumed k1 s n -> (∀ s' n', k1 s' = Some n' -> consumed k2 s' n') ->
  consumed k2 s n.
Proof.
  intros (m1 & n1 & -> & Hm1 & Hk1) Hk.
  destruct (Hk _ _ Hk1) as (m2 & n2 & -> & Hm2 & Hk2).
  exists (m1 + m2)%nat, n2. split_and!; [lia| |].
  - by apply line_prefix_add.
  - by rewrite skipn_add.
Qed.

Lemma lazy_dots_consumed k s n :
  Re.lazy_dots k s = Some n -> consumed k s n.
Proof.
  revert n. induction s as [|c s IH]; intros n; simpl.
  - destruct (k "") eqn:Ek; [|done]. intros [= <-]. by apply consumed_here.
  - destruct (k (String c s)) eqn:Ek.
    { intros [= <-]. by apply consumed_here. }
    destruct (Char.is_newline c) eqn:Ec; [done|].
    destruct (Re.lazy_dots k s) as [n0|]; [|done].
    intros [= <-]. apply consumed_step; auto.
Qed.

Lemma matchk_consumed r :
  Re.nl_free r = true ->
  ∀ k s n, Re.matchk r k s = Some n -> consumed k s n.
Proof.
  induction r as [c| |r1 IH1 r2 IH2|r1 IH1 r2 IH2]; simpl.
  - intros Hc%negb_true_iff k [|a s] n; [done|].
    destruct (Char.eqb_ci a c) eqn:Ea; [|done].
    destruct (k s) as [n0|] eqn:Ek; [|done]. intros [= <-].
    apply consumed_step; [by eapply eqb_ci_newline|by apply consumed_here].
  - intros _ k s n. apply lazy_dots_consumed.
  - intros [H1 H2]%andb_true_iff k s n Hm.
    eapply consumed_seq; [exact (IH1 H1 _ _ _ Hm)|]. intros s' n'. by apply IH2.
  - intros [H1 H2]%andb_true_iff k s n.
    destruct (Re.matchk r1 k s) as [n0|] eqn:E1.
    + intros [= <-]. by apply IH1.
    + by apply IH2.
Qed.

Lemma match_at_line r s n :
  Re.nl_free r = true -> Re.match_at r s = Some n ->
  Re.line_prefix n s = true.
Proof.
  intros Hr Hm. destruct (matchk_consumed r Hr _ _ _ Hm) as (m & n' & -> & Hm' & [= <-]).
  by rewrite Nat.add_0_r.
Qed.

Lemma noise_match_pos s n : Re.match_at Re.noise s = Some n -> n ≠ 0%nat.
Proof.
  unfold Re.match_at, Re.noise, Re.citation, Re.see_note. simpl.
  destruct s as [|c s]; [done|].
  destruct (Char.eqb_ci c "[").
  - destruct (Re.lazy_dots _ s); simpl.
    + by intros [= <-].
    + destruct (Char.eqb_ci c "("); [|done].
      destruct (Re.lazy_dots _ s); simpl; [by intros [= <-]|done].
  - destruct (Char.eqb_ci c "("); [|done].
    destruct (Re.lazy_dots _ s); simpl; [by intros [= <-]|done].
Qed.

(** ** Citations *)

Lemma dots_close s :
  Re.lazy_dots (Re.matchk (Re.Lit "]") (fun _ => Some O)) s = None
  ↔ Re.closes s = false.
Proof.
  induction s as [|c s IH]; simpl; [done|].
  rewrite eqb_ci_close. destruct (Ascii.eqb c "]"); simpl; [done|].
  destruct (Char.is_newline c); [done|].
  destruct (Re.lazy_dots _ s); simpl in *.
  - split; [done|]. intros H. by apply IH in H.
  - split; [|done]. intros _. by apply IH.
Qed.

Lemma match_at_citation_None c s :
  Re.match_at Re.citation (String c s) = None
  ↔ Ascii.eqb c "[" && Re.closes s = false.
Proof.
  unfold Re.match_at, Re.citation. simpl. rewrite eqb_ci_open.
  destruct (Ascii.eqb c "["); simpl; [|done].
  rewrite <- dots_close. by destruct (Re.lazy_dots _ s).
Qed.

Lemma search_citation s : Re.search Re.citation s = Re.has_citation s.
Proof.
  induction s as [|c s IH]; [done|].
  change (Re.search Re.citation (String c s))
    with (match Re.match_at Re.citation (String c s) with
          | Some _ => true
          | None => Re.search Re.citation s
          end).
  simpl. rewrite IH.
  destruct (Re.match_at Re.citation (String c s)) eqn:E.
  - destruct (Ascii.eqb c "[" && Re.closes s) eqn:E'; [done|].
    apply match_at_citation_None in E'. congruence.
  - apply match_at_citation_None in E. by rewrite E.
Qed.

Lemma noise_None_citation s :
  Re.match_at Re.noise s = None -> Re.match_at Re.citation s = None.
Proof.
  unfold Re.match_at, Re.noise.
  change (Re.matchk (Re.Alt Re.citation Re.see_note) (fun _ => Some O) s)
    with (match Re.matchk Re.citation (fun _ => Some O) s with
          | Some n => Some n
          | None => Re.matchk Re.see_note (fun _ => Some O) s
          end).
  by destruct (Re.matchk Re.citation _ s).
Qed.

(** ** Substitution *)

Lemma closes_cons c s :
  Re.closes (String c s) = false ->
  Ascii.eqb c "]" = false ∧ (Char.is_newline c = false -> Re.closes s = false).
Proof.
  simpl. destruct (Ascii.eqb c "]"); [done|].
  destruct (Char.is_newline c); [done|]. auto.
Qed.

Lemma closes_sub_from s : ∀ k,
  Re.line_prefix k s = true -> Re.closes s = false ->
  Re.closes (Re.sub_from Re.noise k s) = false.
Proof.
  induction s as [|c s IH]; intros k Hk Hcl; [done|].
  destruct (closes_cons _ _ Hcl) as [Hc Hs].
  destruct k as [|k]; simpl.
  - destruct (Re.match_at Re.noise (String c s)) as [[|n]|] eqn:Em.
    + simpl. rewrite Hc. destruct (Char.is_newline c); [done|]. by apply IH; auto.
    + apply match_at_line in Em; [|done]. simpl in Em.
      apply andb_true_iff in Em as [Hnl%negb_true_iff Hn]. by apply IH; auto.
    + simpl. rewrite Hc. destruct (Char.is_newline c); [done|]. by apply IH; auto.
  - simpl in Hk. apply andb_true_iff in Hk as [Hnl%negb_true_iff Hk].
    by apply IH; auto.
Qed.

Lemma has_citation_sub_from s : ∀ k,
  Re.has_citation (Re.sub_from Re.noise k s) = false.
Proof.
  induction s as [|c s IH]; intros k; [done|].
  destruct k as [|k]; simpl; [|apply IH].
  destruct (Re.match_at Re.noise (String c s)) as [[|n]|] eqn:Em.
  - by apply noise_match_pos in Em.
  - apply IH.
  - simpl. rewrite IH, orb_false_r.
    apply noise_None_citation, match_at_citation_None in Em.
    destruct (Ascii.eqb c "["); [|done]. simpl in *.
    by apply closes_sub_from.
Qed.

Lemma sub_from_length r s : ∀ k,
  (String.length (Re.sub_from r k s) ≤ String.length s - k)%nat.
Proof.
  induction s as [|c s IH]; intros k; simpl; [lia|].
  destruct k as [|k].
  - destruct (Re.match_at r (String c s)) as [[|n]|]; simpl;
      [specialize (IH 0%nat)|specialize (IH n)|specialize (IH 0%nat)]; lia.
  - apply IH.
Qed.

Lemma sub_no_match r s : Re.search r s = false -> Re.sub r s = s.
Proof.
  unfold Re.sub. induction s as [|c s IH]; [done|].
  change (Re.search r (String c s))
    with (match Re.match_at r (String c s) with
          | Some _ => true
          | None => Re.search r s
          end).
  simpl. destruct (Re.match_at r (String c s)); [done|].
  intros H. by rewrite IH.
Qed.

Lemma sub_noise_shrinks s :
  Re.search Re.noise s = true ->
  (String.length (Re.sub Re.noise s) < String.length s)%nat.
Proof.
  unfold Re.sub. induction s as [|c s IH].
  - simpl. destruct (Re.match_at Re.noise "") as [n|] eqn:E; [|done].
    pose proof (noise_match_pos _ _ E).
    apply match_at_line in E; [|done]. by destruct n.
  - change (Re.search Re.noise (String c s))
      with (match Re.match_at Re.noise (String c s) with
            | Some _ => true
            | None => Re.search Re.noise s
            end).
    simpl. destruct (Re.match_at Re.noise (String c s)) as [[|n]|] eqn:E.
    + by apply noise_match_pos in E.
    + intros _. pose proof (sub_from_length Re.noise s n). lia.
    + intros H. simpl. apply IH in H. lia.
Qed.

Lemma sub_from_mem r a s : ∀ k,
  Str.mem a (Re.sub_from r k s) = true -> Str.mem a s = true.
Proof.
  induction s as [|c s IH]; intros k; simpl; [done|].
  destruct k as [|k].
  - destruct (Re.match_at r (String c s)) as [[|n]|]; simpl;
      try (intros [->|H]%orb_true_iff; [done|]; rewrite (IH _ H);
           by rewrite orb_true_r).
    intros H. rewrite (IH _ H). by rewrite orb_true_r.
  - intros H. rewrite (IH _ H). by rewrite orb_true_r.
Qed.

Local Arguments String.append !_ _ / : simpl nomatch.

(** ** Trimming *)

Section Strip.

Variable p : ascii -> bool.

Lemma lstrip_length s :
  (String.length (Str.lstrip p s) ≤ String.length s)%nat.
Proof. induction s as [|c s IH]; simpl; [lia|]. destruct (p c); simpl; lia. Qed.

Lemma rstrip_length s :
  (String.length (Str.rstrip p s) ≤ String.length s)%nat.
Proof.
  induction s as [|c s IH]; simpl; [lia|].
  destruct (Str.rstrip p s); [destruct (p c)|]; simpl in *; lia.
Qed.

Lemma rstrip_cons c s :
  p c = false -> Str.rstrip p (String c s) = String c (Str.rstrip p s).
Proof. intros Hc. simpl. rewrite Hc. by destruct (Str.rstrip p s). Qed.

Lemma rstrip_idem s : Str.rstrip p (Str.rstrip p s) = Str.rstrip p s.
Proof.
  induction s as [|c s IH]; [done|]. simpl.
  destruct (Str.rstrip p s) as [|a r] eqn:E.
  - destruct (p c) eqn:Ec; [done|]. simpl. by rewrite Ec.
  - change (Str.rstrip p (String c (String a r)))
      with (match Str.rstrip p (String a r) with
            | "" => if p c then "" else String c ""
            | r' => String c r'
            end).
    by rewrite IH.
Qed.

Lemma lstrip_head s c t : Str.lstrip p s = String c t -> p c = false.
Proof.
  induction s as [|a s IH]; simpl; [done|].
  destruct (p a) eqn:Ea; [done|]. by intros [= <- _].
Qed.

Lemma rstrip_last s t c :
  Str.rstrip p s = t +:+ String c "" -> p c = false.
Proof.
  revert t. induction s as [|a s IH]; intros t; simpl.
  - by destruct t.
  - destruct (Str.rstrip p s) as [|b r] eqn:E.
    + destruct (p a) eqn:Ea; [by destruct t|].
      destruct t as [|a' [|??]]; simpl; [by intros [= <-]|done..].
    + destruct t as [|a' t]; simpl; [done|]. intros [= <- H]. by eapply IH.
Qed.

Lemma strip_idem s : Str.strip p (Str.strip p s) = Str.strip p s.
Proof.
  unfold Str.strip. destruct (Str.lstrip p s) as [|c t] eqn:E; [done|].
  pose proof (lstrip_head _ _ _ E) as Hc.
  rewrite (rstrip_cons _ _ Hc). simpl. rewrite Hc.
  rewrite (rstrip_cons _ _ Hc). by rewrite rstrip_idem.
Qed.

Lemma strip_length s :
  (String.length (Str.strip p s) ≤ String.length s)%nat.
Proof.
  unfold Str.strip. etrans; [apply rstrip_length|apply lstrip_length].
Qed.

Lemma lstrip_suffix s : ∃ u, s = u +:+ Str.lstrip p s.
Proof.
  induction s as [|c s [u IH]]; [by exists ""|]. simpl.
  destruct (p c); [|by exists ""]. exists (String c u). simpl. by f_equal.
Qed.

Lemma rstrip_prefix s : ∃ u, s = Str.rstrip p s +:+ u.
Proof.
  induction s as [|c s [u IH]]; [by exists ""|]. simpl.
  destruct (Str.rstrip p s) as [|a r].
  - destruct (p c); [by exists (String c s)|]. exists u. simpl in *.
    by f_equal.
  - exists u. simpl in *. by f_equal.
Qed.

Lemma strip_infix s : ∃ u v, s = u +:+ Str.strip p s +:+ v.
Proof.
  destruct (lstrip_suffix s) as [u Hu].
  destruct (rstrip_prefix (Str.lstrip p s)) as [v Hv].
  exists u, v. unfold Str.strip. by rewrite <- Hv.
Qed.

(** A string with no character to trim at either end is left alone. *)
Lemma strip_fixed s :
  (∀ c t, s = String c t -> p c = false) ->
  (∀ t c, s = t +:+ String c "" -> p c = false) ->
  Str.strip p s = s.
Proof.
  intros Hhd Hlast. unfold Str.strip.
  assert (Hl : Str.lstrip p s = s).
  { destruct s as [|c t]; [done|]. simpl. by rewrite (Hhd c t). }
  rewrite Hl. clear Hl Hhd. induction s as [|c s IH]; [done|]. simpl.
  rewrite IH.
  - destruct s as [|a s]; [|done]. by rewrite (Hlast "" c).
  - intros t a ->. by apply (Hlast (String c t) a).
Qed.

End Strip.

(** ** Membership and citations under append *)

Lemma mem_app a u v :
  Str.mem a (u +:+ v) = Str.mem a u || Str.mem a v.
Proof.
  induction u as [|c u IH]; [done|]. simpl. rewrite IH. by rewrite orb_assoc.
Qed.

Lemma closes_app u v : Re.closes u = true -> Re.closes (u +:+ v) = true.
Proof.
  induction u as [|c u IH]; [done|]. simpl.
  destruct (Ascii.eqb c "]"); [done|]. by destruct (Char.is_newline c).
Qed.

Lemma has_citation_app_l u v :
  Re.has_citation u = true -> Re.has_citation (u +:+ v) = true.
Proof.
  induction u as [|c u IH]; [done|]. simpl.
  intros [[Hc Hcl]%andb_true_iff|H]%orb_true_iff.
  - by rewrite Hc, closes_app.
  - rewrite IH by done. by rewrite orb_true_r.
Qed.

Lemma has_citation_app_r u v :
  Re.has_citation v = true -> Re.has_citation (u +:+ v) = true.
Proof.
  intros H. induction u as [|c u IH]; [done|]. simpl.
  by rewrite IH, orb_true_r.
Qed.

Lemma has_citation_infix u s v :
  Re.has_citation (u +:+ s +:+ v) = false -> Re.has_citation s = false.
Proof.
  intros H. destruct (Re.has_citation s) eqn:E; [|done].
  rewrite has_citation_app_r in H; [done|]. by apply has_citation_app_l.
Qed.

(** ** Lower case *)

Lemma lower_length s : String.length (Str.lower s) = String.length s.
Proof. induction s; simpl; congruence. Qed.

Lemma lower_lower s : Str.lower (Str.lower s) = Str.lower s.
Proof. induction s; simpl; [done|]. by rewrite lower_idem; f_equal. Qed.

Lemma closes_lower s : Re.closes (Str.lower s) = Re.closes s.
Proof.
  induction s as [|c s IH]; [done|]. simpl.
  by rewrite lower_is_close, lower_is_newline, IH.
Qed.

Lemma has_citation_lower s :
  Re.has_citation (Str.lower s) = Re.has_citation s.
Proof.
  induction s as [|c s IH]; [done|]. simpl.
  by rewrite lower_is_open, closes_lower, IH.
Qed.

(** ** The text normalizer *)

Lemma search_unfold r c s :
  Re.search r (String c s)
  = match Re.match_at r (String c s) with
    | Some _ => true
    | None => Re.search r s
    end.
Proof. reflexivity. Qed.

Lemma search_noise_false y :
  Re.has_citation y = false -> Str.mem "(" y = false ->
  Re.search Re.noise y = false.
Proof.
  induction y as [|c y IH]; [done|]. simpl Re.has_citation. simpl Str.mem.
  intros [Hcit Hy]%orb_false_iff [Hc Hm]%orb_false_iff.
  rewrite search_unfold.
  assert (Hnone : Re.match_at Re.noise (String c y) = None).
  { apply match_at_citation_None in Hcit. unfold Re.match_at, Re.noise in *.
    change (Re.matchk (Re.Alt Re.citation Re.see_note) (fun _ => Some O)
              (String c y))
      with (match Re.matchk Re.citation (fun _ => Some O) (String c y) with
            | Some n => Some n
            | None => Re.matchk Re.see_note (fun _ => Some O) (String c y)
            end).
    rewrite Hcit. unfold Re.see_note. simpl. by rewrite eqb_ci_paren, Hc. }
  rewrite Hnone. by apply IH.
Qed.

Lemma has_citation_mem y :
  Str.mem "[" y = false -> Re.has_citation y = false.
Proof.
  induction y as [|c y IH]; [done|]. simpl.
  intros [-> Hm]%orb_false_iff. by apply IH.
Qed.

Lemma clean_text_citation_free x : Re.has_citation (clean_text x) = false.
Proof.
  unfold clean_text.
  destruct (strip_infix trim_char (Re.sub Re.noise x)) as (u & v & Huv).
  eapply (has_citation_infix u _ v). rewrite <- Huv.
  apply has_citation_sub_from.
Qed.

Lemma clean_text_mem a x :
  Str.mem a (clean_text x) = true -> Str.mem a x = true.
Proof.
  unfold clean_text. intros H.
  apply (sub_from_mem Re.noise a x 0).
  destruct (strip_infix trim_char (Re.sub Re.noise x)) as (u & v & Huv).
  unfold Re.sub in *. rewrite Huv, !mem_app, H. by rewrite orb_true_r.
Qed.

Lemma clean_text_when_no_match y :
  Re.search Re.noise y = false -> clean_text y = Str.strip trim_char y.
Proof. intros H. unfold clean_text. by rewrite sub_no_match. Qed.

Lemma clean_text_stripped x :
  Str.strip trim_char (clean_text x) = clean_text x.
Proof. apply strip_idem. Qed.

Lemma clean_text_length_le x :
  (String.length (clean_text x) ≤ String.length x)%nat.
Proof.
  unfold clean_text. etrans; [apply strip_length|].
  pose proof (sub_from_length Re.noise x 0). unfold Re.sub. lia.
Qed.

(** X1. A second pass changes nothing exactly when the first pass left no
    match of the pattern behind. *)
Theorem clean_text_idempotent_iff x :
  clean_text (clean_text x) = clean_text x
  ↔ Re.search Re.noise (clean_text x) = false.
Proof.
  split.
  - intros Hfix. destruct (Re.search Re.noise (clean_text x)) eqn:E; [|done].
    apply sub_noise_shrinks in E.
    pose proof (strip_length trim_char (Re.sub Re.noise (clean_text x))) as H.
    fold (clean_text (clean_text x)) in H. rewrite Hfix in H. lia.
  - intros H. rewrite (clean_text_when_no_match _ H).
    apply clean_text_stripped.
Qed.

(** X2. No bracketed citation is left in the result. *)
Theorem clean_text_no_citation x :
  Re.search Re.citation (clean_text x) = false.
Proof. rewrite search_citation. apply clean_text_citation_free. Qed.

(** X3. On text without an opening parenthesis the normalizer is
    idempotent. *)
Theorem clean_text_idempotent_without_paren x :
  Str.mem "(" x = false -> clean_text (clean_text x) = clean_text x.
Proof.
  intros Hx.
  assert (H : Re.search Re.noise (clean_text x) = false).
  { apply search_noise_false; [apply clean_text_citation_free|].
    destruct (Str.mem "(" (clean_text x)) eqn:E; [|done].
    apply clean_text_mem in E. congruence. }
  rewrite (clean_text_when_no_match _ H). apply clean_text_stripped.
Qed.

(** X4. The result is never longer than the input and has only characters
    of the input. *)
Theorem clean_text_shrinks x :
  (String.length (clean_text x) ≤ String.length x)%nat ∧
  ∀ a, Str.mem a (clean_text x) = true -> Str.mem a x = true.
Proof. split; [apply clean_text_length_le|intros a; apply clean_text_mem]. Qed.

(** X5. The result neither starts nor ends with a character of the trim
    set. *)
Theorem clean_text_trimmed x :
  (∀ c t, clean_text x = String c t -> trim_char c = false) ∧
  (∀ t c, clean_text x = t +:+ String c "" -> trim_char c = false).
Proof.
  split.
  - intros c t E. destruct (trim_char c) eqn:Ec; [|done].
    pose proof (clean_text_stripped x) as H. rewrite E in H.
    unfold Str.strip in H. simpl in H. rewrite Ec in H.
    pose proof (strip_length trim_char t) as Hl. unfold Str.strip in Hl.
    rewrite H in Hl. simpl in Hl. lia.
  - intros t c E. unfold clean_text, Str.strip in E. by eapply rstrip_last.
Qed.

(** X6. Text with no bracket, no parenthesis and nothing to trim at either
    end is returned as it is. *)
Theorem clean_text_fixed x :
  Str.mem "[" x = false -> Str.mem "(" x = false ->
  (∀ c t, x = String c t -> trim_char c = false) ->
  (∀ t c, x = t +:+ String c "" -> trim_char c = false) ->
  clean_text x = x.
Proof.
  intros Hb Hp Hhd Hlast.
  rewrite clean_text_when_no_match.
  - by apply strip_fixed.
  - apply search_noise_false; [by apply has_citation_mem|done].
Qed.

Lemma search_noise_see_note y :
  Re.has_citation y = false ->
  Re.search Re.noise y = Re.search Re.see_note y.
Proof.
  induction y as [|c y IH]; [done|]. simpl Re.has_citation.
  intros [Hcit Hy]%orb_false_iff. rewrite !search_unfold.
  assert (Hsame : Re.match_at Re.noise (String c y)
                  = Re.match_at Re.see_note (String c y)).
  { apply match_at_citation_None in Hcit. unfold Re.match_at, Re.noise in *.
    change (Re.matchk (Re.Alt Re.citation Re.see_note) (fun _ => Some O)
              (String c y))
      with (match Re.matchk Re.citation (fun _ => Some O) (String c y) with
            | Some n => Some n
            | None => Re.matchk Re.see_note (fun _ => Some O) (String c y)
            end).
    by rewrite Hcit. }
  by rewrite Hsame, IH.
Qed.

(** C2. The normalizer is idempotent exactly on the inputs whose normalized
    text holds no "see" parenthetical (no bracketed citation is ever left
    in it); on the other inputs a second pass gives a strictly shorter
    text. *)
Theorem clean_text_idempotent_when x :
  (clean_text (clean_text x) = clean_text x
   ↔ Re.search Re.see_note (clean_text x) = false) ∧
  (Re.search Re.see_note (clean_text x) = true ->
   (String.length (clean_text (clean_text x))
    < String.length (clean_text x))%nat).
Proof.
  pose proof (search_noise_see_note _ (clean_text_citation_free x)) as Hsee.
  split.
  - rewrite <- Hsee. split.
    + intros Hfix.
      destruct (Re.search Re.noise (clean_text x)) eqn:E; [|done].
      apply sub_noise_shrinks in E.
      pose proof (strip_length trim_char (Re.sub Re.noise (clean_text x)))
        as H.
      fold (clean_text (clean_text x)) in H. rewrite Hfix in H. lia.
    + intros H. rewrite (clean_text_when_no_match _ H).
      apply clean_text_stripped.
  - rewrite <- Hsee. intros E. apply sub_noise_shrinks in E.
    pose proof (strip_length trim_char (Re.sub Re.noise (clean_text x)))
      as H.
    fold (clean_text (clean_text x)) in H. lia.
Qed.

(** ** The symptom extractor *)

Lemma keep_items_elem_of ok parts item :
  item ∈ keep_items ok parts
  ↔ ∃ part, part ∈ parts ∧ ok (clean_text part) = true
            ∧ item = Str.lower (clean_text part).
Proof.
  unfold keep_items. rewrite list_elem_of_omap. split.
  - intros (part & Hin & H). exists part.
    destruct (ok (clean_text part)); [|done]. by injection H as <-.
  - intros (part & Hin & Hok & ->). exists part. by rewrite Hok.
Qed.


Lemma fromkeys_fold items : ∀ acc,
  NoDup acc ->
  NoDup (fold_left add_key items acc) ∧
  (∀ x, x ∈ fold_left add_key items acc ↔ x ∈ acc ∨ x ∈ items) ∧
  ∃ r, fold_left add_key items acc = acc ++ r ∧ r `sublist_of` items.
Proof.
  induction items as [|y items IH]; intros acc Hnd; simpl.
  - split_and!; [done| |].
    + intros x. rewrite elem_of_nil. tauto.
    + exists []. by rewrite app_nil_r.
  - unfold add_key at 2 4 6. destruct (decide (y ∈ acc)) as [Hy|Hy].
    + destruct (IH acc Hnd) as (H1 & H2 & r & H3 & H4).
      split_and!; [done| |].
      * intros x. rewrite H2, elem_of_cons.
        split; [tauto|]. intros [?|[->|?]]; auto.
      * exists r. split; [done|]. by apply sublist_cons.
    + assert (Hnd' : NoDup (acc ++ [y])).
      { apply NoDup_app. split_and!; [done| |apply NoDup_singleton].
        intros x Hx ->%list_elem_of_singleton. done. }
      destruct (IH _ Hnd') as (H1 & H2 & r & H3 & H4).
      split_and!; [done| |].
      * intros x. rewrite H2, elem_of_app, list_elem_of_singleton, elem_of_cons.
        tauto.
      * exists (y :: r). split; [by rewrite H3, <- app_assoc|].
        by apply sublist_skip.
Qed.

Lemma dict_fromkeys_fold items :
  dict_fromkeys items = fold_left add_key items [].
Proof. reflexivity. Qed.

Lemma dict_fromkeys_elem_of items x : x ∈ dict_fromkeys items ↔ x ∈ items.
Proof.
  rewrite dict_fromkeys_fold.
  destruct (fromkeys_fold items [] (NoDup_nil_2)) as (_ & H & _).
  rewrite H, elem_of_nil. tauto.
Qed.

Lemma dict_fromkeys_NoDup items : NoDup (dict_fromkeys items).
Proof.
  rewrite dict_fromkeys_fold.
  by destruct (fromkeys_fold items [] (NoDup_nil_2)) as (H & _).
Qed.

Lemma fromkeys_fold_fresh items : ∀ acc,
  NoDup (acc ++ items) -> fold_left add_key items acc = acc ++ items.
Proof.
  induction items as [|y items IH]; intros acc Hnd; simpl.
  - by rewrite app_nil_r.
  - unfold add_key at 2. rewrite decide_False.
    + rewrite IH; [by rewrite <- app_assoc|]. by rewrite <- app_assoc.
    + apply NoDup_app in Hnd as (_ & H & _). intros Hy.
      apply (H y Hy). by left.
Qed.

Lemma fromkeys_fold_filter items : ∀ acc,
  fold_left add_key items acc
  = acc ++ filter (fun y => y ∉ acc) (fold_left add_key items []).
Proof.
  induction items as [|y items IH]; intros acc; simpl.
  - by rewrite filter_nil, app_nil_r.
  - rewrite (IH (add_key acc y)), (IH (add_key [] y)).
    unfold add_key. rewrite (decide_False (P := y ∈ [])) by apply not_elem_of_nil.
    simpl. rewrite filter_cons.
    destruct (decide (y ∈ acc)) as [Hy|Hy].
    + rewrite decide_False by (intros H; by apply H).
      rewrite list_filter_filter. f_equal. apply list_filter_iff.
      intros z. rewrite list_elem_of_singleton. split; [|tauto].
      intros Hz. split; [done|]. by intros ->.
    + rewrite decide_True by done.
      rewrite list_filter_filter, <- app_assoc. simpl. do 2 f_equal.
      apply list_filter_iff. intros z.
      rewrite elem_of_app, list_elem_of_singleton. tauto.
Qed.

Lemma dict_fromkeys_cons x items :
  dict_fromkeys (x :: items)
  = x :: filter (fun y => y ≠ x) (dict_fromkeys items).
Proof.
  rewrite !dict_fromkeys_fold. simpl. rewrite fromkeys_fold_filter.
  unfold add_key. rewrite decide_False by apply not_elem_of_nil. simpl.
  f_equal. apply list_filter_iff. intros z.
  by rewrite list_elem_of_singleton.
Qed.

(** X7. The keys come out without repetition, in the order of their first
    occurrence, and none is lost: the result begins with the first item,
    and goes on with the keys of the other items, without that one.  So a
    list without repetition is unchanged. *)
Theorem dict_fromkeys_spec items :
  dict_fromkeys [] = [] ∧
  (∀ x, dict_fromkeys (x :: items)
        = x :: filter (fun y => y ≠ x) (dict_fromkeys items)) ∧
  NoDup (dict_fromkeys items) ∧
  (∀ x, x ∈ dict_fromkeys items ↔ x ∈ items) ∧
  dict_fromkeys items `sublist_of` items ∧
  (NoDup items -> dict_fromkeys items = items).
Proof.
  split_and!.
  - reflexivity.
  - intros x. apply dict_fromkeys_cons.
  - apply dict_fromkeys_NoDup.
  - intros x. apply dict_fromkeys_elem_of.
  - rewrite dict_fromkeys_fold.
    destruct (fromkeys_fold items [] (NoDup_nil_2)) as (_ & _ & r & -> & H).
    done.
  - intros Hnd. rewrite dict_fromkeys_fold. by apply fromkeys_fold_fresh.
Qed.

Lemma len_ok_spec t :
  len_ok t = true ↔ (3 ≤ String.length t ≤ 60)%nat.
Proof.
  unfold len_ok. rewrite andb_true_iff, !Nat.leb_le. done.
Qed.

Lemma kept_item_ok ok parts item :
  (∀ t, ok t = true -> len_ok t = true) ->
  item ∈ keep_items ok parts ->
  (∃ part, part ∈ parts ∧ item = Str.lower (clean_text part) ∧
           (3 ≤ String.length (clean_text part) ≤ 60)%nat) ∧
  Str.lower item = item ∧ Re.search Re.citation item = false.
Proof.
  intros Hok (part & Hin & H & ->)%keep_items_elem_of.
  apply Hok, len_ok_spec in H. rewrite lower_lower.
  split_and!; [by exists part|done|].
  rewrite search_citation, has_citation_lower. apply clean_text_citation_free.
Qed.

Lemma extract_from_soup_elem_of td item :
  item ∈ extract_from_soup (SymptomsCell td) ->
  item ∈ keep_items len_ok (li_texts td) ∨
  item ∈ keep_items (fun t => len_ok t && negb (boilerplate t))
           (Str.split_on is_semi_comma (sep_text td)).
Proof.
  simpl. rewrite dict_fromkeys_elem_of.
  destruct (length (keep_items len_ok (li_texts td)) <? 4)%nat; [|by left].
  by rewrite elem_of_app.
Qed.

(** X8. The extractor's output has no repetition.  Every item of it is the
    lower-case form of a cleaned piece of the value cell, a list item or a
    piece of the cell's text between semicolons and commas, and it is the
    cleaned piece, before it is put in lower case, that has between 3 and
    60 characters: the length is tested first, and the length of the item
    itself is not bounded by this where lower-casing changes the length.
    The item has no upper-case ASCII letter and holds no bracketed
    citation. *)
Theorem extract_items_spec sp :
  NoDup (extract_from_soup sp) ∧
  ∀ item, item ∈ extract_from_soup sp ->
    (∃ td part,
       sp = SymptomsCell td ∧
       (part ∈ li_texts td ∨
        part ∈ Str.split_on is_semi_comma (sep_text td)) ∧
       item = Str.lower (clean_text part) ∧
       (3 ≤ String.length (clean_text part) ≤ 60)%nat) ∧
    Str.lower item = item ∧ Re.search Re.citation item = false.
Proof.
  split.
  - destruct sp; simpl; try apply NoDup_nil_2. apply dict_fromkeys_NoDup.
  - intros item Hin. destruct sp as [| | |td];
      try (by apply elem_of_nil in Hin).
    apply extract_from_soup_elem_of in Hin as [Hin|Hin].
    + destruct (kept_item_ok len_ok _ item (fun t H => H) Hin)
        as ((part & Hp & Hi & Hl) & Hlow & Hcit).
      split_and!; [|done|done]. exists td, part. auto.
    + destruct (kept_item_ok _ _ item
                  (fun t H => proj1 (proj1 (andb_true_iff _ _) H)) Hin)
        as ((part & Hp & Hi & Hl) & Hlow & Hcit).
      split_and!; [|done|done]. exists td, part. auto.
Qed.


(** X9. When the list items alone give four symptoms or more, the text of
    the cell plays no part in the result. *)
Theorem extract_ignores_text_after_four lis raw1 raw2 :
  (4 ≤ length (keep_items len_ok lis))%nat ->
  extract_from_soup (SymptomsCell {| li_texts := lis; sep_text := raw1 |})
  = extract_from_soup (SymptomsCell {| li_texts := lis; sep_text := raw2 |}).
Proof.
  intros H. simpl.
  assert ((length (keep_items len_ok lis) <? 4)%nat = false) as ->; [|done].
  apply Nat.ltb_ge. lia.
Qed.

(** X10. Every list item that passes the length test is in the result (in
    lower case), whether or not the fallback runs; the boilerplate test
    applies to the fallback only. *)
Theorem extract_keeps_list_items td li :
  li ∈ li_texts td -> len_ok (clean_text li) = true ->
  Str.lower (clean_text li) ∈ extract_from_soup (SymptomsCell td).
Proof.
  intros Hin Hok. simpl. rewrite dict_fromkeys_elem_of.
  assert (H : Str.lower (clean_text li) ∈ keep_items len_ok (li_texts td)).
  { apply keep_items_elem_of. eauto. }
  destruct (length (keep_items len_ok (li_texts td)) <? 4)%nat; [|done].
  apply elem_of_app. by left.
Qed.

(** ** Boilerplate *)

Lemma eqb_ci_lower b a : Char.eqb_ci (Char.lower b) a = Char.eqb_ci b a.
Proof. unfold Char.eqb_ci. by rewrite lower_idem. Qed.

Lemma prefix_ci_lower lit t :
  Str.prefix_ci lit (Str.lower t) = Str.prefix_ci lit t.
Proof.
  revert t. induction lit as [|a lit IH]; intros [|b t]; simpl; try done.
  by rewrite eqb_ci_lower, IH.
Qed.

Lemma boilerplate_lower t : boilerplate (Str.lower t) = boilerplate t.
Proof. unfold boilerplate. by rewrite !prefix_ci_lower. Qed.

(** X11. An item of the result that no list item gave does not begin with
    "some cases", "recurring" or "latent", in any case. *)
Theorem fallback_items_not_boilerplate td item :
  item ∈ extract_from_soup (SymptomsCell td) ->
  item ∉ keep_items len_ok (li_texts td) ->
  boilerplate item = false.
Proof.
  intros [Hin|Hin]%extract_from_soup_elem_of Hout; [done|].
  apply keep_items_elem_of in Hin as (part & _ & Hok & ->).
  apply andb_true_iff in Hok as [_ Hb%negb_true_iff].
  by rewrite boilerplate_lower.
Qed.



Lemma replace_space_mem t : Str.mem " " (Str.replace_char " " "_" t) = false.
Proof.
  induction t as [|c t IH]; [done|]. simpl. rewrite IH, orb_false_r.
  destruct (Ascii.eqb c " ") eqn:E; [done|exact E].
Qed.

Lemma replace_space_inj t1 t2 :
  Str.mem "_" t1 = false -> Str.mem "_" t2 = false ->
  Str.replace_char " " "_" t1 = Str.replace_char " " "_" t2 -> t1 = t2.
Proof.
  revert t2. induction t1 as [|c1 t1 IH]; intros [|c2 t2]; simpl; try done.
  intros [H1 Ht1]%orb_false_iff [H2 Ht2]%orb_false_iff [= Hc Ht].
  f_equal; [|by apply IH].
  destruct (Ascii.eqb c1 " ") eqn:E1, (Ascii.eqb c2 " ") eqn:E2.
  - apply Ascii.eqb_eq in E1, E2. congruence.
  - subst c2. by rewrite Ascii.eqb_refl in H2.
  - subst c1. by rewrite Ascii.eqb_refl in H1.
  - done.
Qed.

Lemma length_append s t :
  String.length (s +:+ t) = (String.length s + String.length t)%nat.
Proof. induction s as [|c s IH]; simpl; [done|]. by rewrite IH. Qed.

Lemma append_inv_tail s1 s2 t : s1 +:+ t = s2 +:+ t -> s1 = s2.
Proof.
  intros H.
  assert (Hl : String.length s1 = String.length s2).
  { apply (f_equal String.length) in H. rewrite !length_append in H.
    lia. }
  revert s2 H Hl. induction s1 as [|c s1 IH]; intros [|c2 s2]; simpl;
    try done.
  intros [= -> H] [= Hl]. f_equal. by apply IH.
Qed.

Lemma append_inv_head s t1 t2 : s +:+ t1 = s +:+ t2 -> t1 = t2.
Proof. induction s as [|c s IH]; simpl; [done|]. intros [= H]. auto. Qed.

(** X12. The cache file and the address of a page depend on the title with
    its spaces read as underscores: two titles share them exactly when
    they agree up to that, so titles without underscores never collide. *)
Theorem page_names t1 t2 :
  (page_url t1 = page_url t2 ↔ page_file t1 = page_file t2) ∧
  (page_file t1 = page_file t2
   ↔ Str.replace_char " " "_" t1 = Str.replace_char " " "_" t2) ∧
  (Str.mem "_" t1 = false -> Str.mem "_" t2 = false ->
   page_file t1 = page_file t2 -> t1 = t2) ∧
  Str.mem " " (Str.replace_char " " "_" t1) = false.
Proof.
  assert (H1 : page_file t1 = page_file t2
               ↔ Str.replace_char " " "_" t1 = Str.replace_char " " "_" t2).
  { split; [apply append_inv_tail|]. unfold page_file. by intros ->. }
  split_and!; [|done| |apply replace_space_mem].
  - split; [apply append_inv_head|]. unfold page_url. by intros ->.
  - intros Hu1 Hu2 H. by apply replace_space_inj, H1.
Qed.

Lemma universal_newlines_id s :
  Str.mem carriage_return s = false -> universal_newlines s = s.
Proof.
  induction s as [|c s IH]; [done|]. simpl.
  intros [Hc Hs]%orb_false_iff. rewrite Hc. f_equal. by apply IH.
Qed.

Section CacheFacts.

Variable FS : Type.
Variable path_exists : FS -> string -> bool.
Variable file_text : FS -> string -> option string.
Variable write_text : FS -> string -> string -> bool * FS.

Local Abbreviation fetch_page :=
  (Cache.fetch_page FS path_exists file_text write_text).

(** A file that was written exists and holds the text written: the line
    separator of the system is a newline, which writing in text mode leaves
    as it is (the cache directory of the program is a POSIX path). *)
Hypothesis write_then_read : ∀ fs path text fs',
  write_text fs path text = (true, fs') ->
  path_exists fs' path = true ∧ file_text fs' path = Some text.

(** X13. Once [fetch_page] has returned a page, every later call for the
    same title returns a page too and leaves the files as they are,
    whatever the network does by then.  A page that came from the cache is
    returned again as it was; a page that came from the network is
    returned as text-mode reading gives it, each carriage return and
    newline pair and each lone carriage return read as a newline: the same
    text only if the page holds no carriage return. *)
Theorem fetch_page_again http_get http_get' fs title html fs' :
  fetch_page http_get fs title = (Some html, fs') ->
  fetch_page http_get' fs' title
  = (Some (if path_exists fs (page_path title) then html
           else universal_newlines html), fs') ∧
  (Str.mem carriage_return html = false ->
   fetch_page http_get' fs' title = (Some html, fs')).
Proof.
  unfold Cache.fetch_page.
  destruct (path_exists fs (page_path title)) eqn:Ex.
  - intros [= Hr <-]. by rewrite Ex, Hr.
  - destruct (http_get (page_url title)) as [h|]; [|done].
    destruct (write_text fs (page_path title) h) as [[] fs1] eqn:Ew; [|done].
    intros [= <- <-]. destruct (write_then_read _ _ _ _ Ew) as [Hex Hrd].
    rewrite Hex. unfold Cache.read_text. rewrite Hrd. simpl.
    split; [done|]. intros Hcr. by rewrite universal_newlines_id.
Qed.

End CacheFacts.

(** ** The narrowing engine *)

Section Engine.

Variable wiki_search : string -> nat -> option (list string).
Variable fetch_page : string -> option string.
Variable BeautifulSoup : string -> option soup.
Variable isdigit : string -> bool.
Variable int : string -> option Z.

Local Abbreviation apply_symptom :=
  (apply_symptom wiki_search fetch_page BeautifulSoup).
Local Abbreviation token_step :=
  (token_step wiki_search fetch_page BeautifulSoup isdigit int).
Local Abbreviation process_tokens :=
  (process_tokens wiki_search fetch_page BeautifulSoup isdigit int).
Local Abbreviation main_loop :=
  (main_loop wiki_search fetch_page BeautifulSoup isdigit int).
Local Abbreviation main :=
  (main wiki_search fetch_page BeautifulSoup isdigit int).
Local Abbreviation filter_step :=
  (filter_step wiki_search fetch_page BeautifulSoup isdigit int).
Local Abbreviation reachable :=
  (reachable wiki_search fetch_page BeautifulSoup isdigit int).
Local Abbreviation resolve := (resolve isdigit int).
Local Abbreviation out_of_range := (out_of_range isdigit int).

(** *** The shape of one transition *)

Lemma apply_symptom_seed st sym out f :
  selected st = [] -> apply_symptom st sym = (out, f) ->
  selected (flow_state f) = [sym].
Proof.
  unfold apply_symptom. intros ->.
  destruct (search_candidate_diseases _ _ _ sym 100) as [[|d pool]|];
    intros [= <- <-]; reflexivity.
Qed.

Lemma apply_symptom_later st sym out f :
  selected st ≠ [] -> apply_symptom st sym = (out, f) ->
  flow_state f = st ∨
  flow_state f = {| selected := selected st ++ [sym];
                    remaining := filter (keeps sym) (remaining st) |}.
Proof.
  unfold apply_symptom. intros Hsel.
  destruct (selected st) as [|s0 sel] eqn:Esel; [done|].
  destruct (decide (sym ∈ s0 :: sel)).
  - intros [= <- <-]. by left.
  - destruct (filter (keeps sym) (remaining st)) eqn:Efil;
      intros [= <- <-]; right; simpl; by rewrite ?Efil.
Qed.

Lemma token_step_later ns st tok out f :
  selected st ≠ [] -> token_step ns st tok = (out, f) ->
  flow_state f = st ∨
  ∃ sym, flow_state f = {| selected := selected st ++ [sym];
                           remaining := filter (keeps sym) (remaining st) |}.
Proof.
  unfold token_step. intros Hsel.
  destruct (resolve ns st tok) as [sym| |].
  - intros H. destruct (apply_symptom_later _ _ _ _ Hsel H); eauto.
  - intros [= <- <-]. by left.
  - intros [= <- <-]. by left.
Qed.

Lemma filter_step_cases st st' :
  filter_step st st' ->
  st' = st ∨
  ∃ sym, st' = {| selected := selected st ++ [sym];
                  remaining := filter (keeps sym) (remaining st) |}.
Proof.
  intros (Hsel & ns & tok & out & f & Hstep & ->).
  eapply token_step_later; eauto.
Qed.

Lemma process_tokens_app ns st pre post out st' :
  process_tokens ns st pre = (out, Next st') ->
  process_tokens ns st (pre ++ post) =
    let '(out', f) := process_tokens ns st' post in (out ++ out', f).
Proof.
  revert st out. induction pre as [|tok pre IH]; intros st out; simpl.
  - intros [= <- <-]. by destruct (process_tokens ns st post).
  - destruct (token_step ns st tok) as [o [st1|st1 e]]; [|done].
    destruct (process_tokens ns st1 pre) as [o1 f1] eqn:E1.
    intros [= <- ->]. rewrite (IH _ _ E1).
    destruct (process_tokens ns st' post). by rewrite app_assoc.
Qed.

(** *** Filtering *)

(** C5. Over any sequence of filter transitions the pool only loses
    candidates: the pool at the end is a sub-list of the pool at the start
    (so every candidate in it was in the earlier pool) and is no longer. *)
Theorem pool_monotone st st' :
  rtc filter_step st st' ->
  remaining st' `sublist_of` remaining st ∧
  (∀ d, d ∈ remaining st' -> d ∈ remaining st) ∧
  (length (remaining st') ≤ length (remaining st))%nat.
Proof.
  intros Hrun.
  assert (Hsub : remaining st' `sublist_of` remaining st).
  { induction Hrun as [st|st st1 st2 Hstep _ IH]; [done|].
    etrans; [exact IH|].
    destruct (filter_step_cases _ _ Hstep) as [->|[sym ->]]; [done|].
    apply sublist_filter. }
  split_and!; [done| |by apply sublist_length].
  intros d Hd. by eapply elem_of_sublist.
Qed.

(** C6. A candidate without symptom data that is in the pool is still in
    it after any sequence of filter transitions, whatever was submitted. *)
Theorem conservative_retention st st' d :
  rtc filter_step st st' ->
  symptoms d = [] -> d ∈ remaining st -> d ∈ remaining st'.
Proof.
  intros Hrun Hd. induction Hrun as [st|st st1 st2 Hstep _ IH]; [done|].
  intros Hin. apply IH.
  destruct (filter_step_cases _ _ Hstep) as [->|[sym ->]]; [done|].
  simpl. apply list_elem_of_filter. split; [by left|done].
Qed.

(** *** The pool invariant *)

Lemma apply_symptom_invariant st sym out f :
  pool_invariant_past_seed st -> apply_symptom st sym = (out, f) ->
  pool_invariant_past_seed (flow_state f).
Proof.
  intros Hinv Hstep. destruct (decide (selected st = [])) as [Hnil|Hsel].
  - intros d _. right. rewrite (apply_symptom_seed _ _ _ _ Hnil Hstep).
    simpl. intros s Hs. by apply elem_of_nil in Hs.
  - destruct (apply_symptom_later _ _ _ _ Hsel Hstep) as [->| ->]; [done|].
    intros d [Hkeep Hd]%list_elem_of_filter. simpl.
    destruct (Hinv d Hd) as [?|Hall]; [by left|].
    destruct Hkeep as [?|Hsym]; [by left|]. right.
    destruct (selected st) as [|s0 sel]; [done|]. simpl in *.
    intros s [?| ->%list_elem_of_singleton]%elem_of_app; auto.
Qed.

Lemma token_step_invariant ns st tok out f :
  pool_invariant_past_seed st -> token_step ns st tok = (out, f) ->
  pool_invariant_past_seed (flow_state f).
Proof.
  unfold token_step. intros Hinv. destruct (resolve ns st tok) as [sym| |].
  - by apply apply_symptom_invariant.
  - by intros [= <- <-].
  - by intros [= <- <-].
Qed.

Lemma process_tokens_invariant ns st tokens out f :
  pool_invariant_past_seed st -> process_tokens ns st tokens = (out, f) ->
  pool_invariant_past_seed (flow_state f).
Proof.
  revert st out. induction tokens as [|tok tokens IH]; intros st out Hinv.
  - by intros [= <- <-].
  - simpl. destruct (token_step ns st tok) as [o [st1|st1 e]] eqn:Estep.
    + destruct (process_tokens ns st1 tokens) as [o1 f1] eqn:E1.
      intros [= <- <-]. eapply IH; [|exact E1].
      exact (token_step_invariant _ _ _ _ _ Hinv Estep).
    + intros [= <- <-]. exact (token_step_invariant _ _ _ _ _ Hinv Estep).
Qed.

(** C1 (amended). In every state a run reaches, each candidate of the pool
    has no symptom data or lists every selected symptom after the first
    one; the seed symptom itself need not be listed. *)
Theorem pool_invariant_reachable f :
  reachable f -> pool_invariant_past_seed (flow_state f).
Proof.
  induction 1 as [|st tokens out f _ IH _ Hrun].
  - intros d Hd. by apply elem_of_nil in Hd.
  - exact (process_tokens_invariant _ _ _ _ _ IH Hrun).
Qed.

(** *** The checklist *)

Lemma unseen_spec st s :
  s ∈ unseen st ↔ (s ∉ selected st) ∧ (∃ d, d ∈ remaining st ∧ s ∈ symptoms d).
Proof.
  unfold unseen. rewrite elem_of_list_to_set, list_elem_of_bind.
  setoid_rewrite list_elem_of_filter. split.
  - intros (d & [Hs Hin] & Hd). eauto.
  - intros (Hs & d & Hd & Hin). eauto.
Qed.

Lemma next_syms_elem_of st s : s ∈ next_syms st ↔ s ∈ unseen st.
Proof.
  unfold next_syms. rewrite merge_sort_Permutation. apply elem_of_elements.
Qed.

(** C7. The checklist is sorted and free of duplicates, its members are
    exactly the symptoms of pool candidates that are not selected (so none
    of them is selected), and it equals the list the design document
    defines. *)
Theorem checklist_spec st :
  Sorted String.le (next_syms st) ∧
  NoDup (next_syms st) ∧
  (∀ s, s ∈ next_syms st ↔
        (s ∉ selected st) ∧ (∃ d, d ∈ remaining st ∧ s ∈ symptoms d)) ∧
  (∀ s, s ∈ next_syms st -> s ∉ selected st) ∧
  next_syms st = spec_next_symptoms st.
Proof.
  assert (Hmem : ∀ s, s ∈ next_syms st ↔
            (s ∉ selected st) ∧ (∃ d, d ∈ remaining st ∧ s ∈ symptoms d)).
  { intros s. by rewrite next_syms_elem_of, unseen_spec. }
  assert (Hnd : NoDup (next_syms st)).
  { unfold next_syms. rewrite merge_sort_Permutation. apply NoDup_elements. }
  split_and!; [apply Sorted_merge_sort, _|done|done|by intros s [? _]%Hmem|].
  apply (Sorted_unique String.le);
    [apply Sorted_merge_sort, _|apply Sorted_merge_sort, _|].
  unfold spec_next_symptoms. rewrite (merge_sort_Permutation _ (remove_dups _)).
  apply NoDup_Permutation; [done|apply NoDup_remove_dups|].
  intros s. rewrite Hmem, elem_of_remove_dups, list_elem_of_bind.
  setoid_rewrite list_elem_of_bind. split.
  - intros (Hs & d & Hd & Hin). exists d. split; [|done]. exists s.
    split; [|done]. rewrite decide_False by done. by apply list_elem_of_singleton.
  - intros (d & (s' & Hs' & Hin) & Hd). destruct (decide (s' ∈ selected st)).
    + by apply elem_of_nil in Hs'.
    + apply list_elem_of_singleton in Hs' as ->. eauto.
Qed.

(** *** Termination *)

Lemma main_loop_terminated lines st m :
  termination st = Some m -> main_loop lines st = ([m], Return).
Proof. intros H. destruct lines; simpl; by rewrite H. Qed.

(** C4. With a symptom selected and an empty checklist the run ends before
    any prompt, whatever input is waiting: with the diagnosis of the sole
    candidate when the pool has exactly one, and otherwise, when the pool
    is not empty, with the list of all remaining candidates. *)
Theorem termination_priority lines st :
  selected st ≠ [] -> next_syms st = [] ->
  (∀ d, remaining st = [d] ->
        main_loop lines st = ([FinalDiagnosis (name d)], Return)) ∧
  (remaining st ≠ [] -> length (remaining st) ≠ 1%nat ->
        main_loop lines st
        = ([UnableToNarrow (name <$> remaining st)], Return)).
Proof.
  intros Hsel Hns. split.
  - intros d Hd. apply main_loop_terminated. unfold termination.
    rewrite Hd, Hns. simpl.
    by rewrite !bool_decide_eq_true_2.
  - intros Hne Hlen. apply main_loop_terminated. unfold termination.
    rewrite Hns. rewrite (bool_decide_eq_false_2 _ Hlen). simpl.
    by rewrite !bool_decide_eq_true_2.
Qed.

(** *** One round of the loop *)

Lemma main_loop_round st0 line lines :
  termination st0 = None -> normalize_input line ≠ "done" ->
  main_loop (line :: lines) st0 =
    match process_tokens (next_syms st0) st0
            (tokenize (normalize_input line)) with
    | (out, Next st') =>
        (prompt_lines st0 ++ out ++ Blank :: (main_loop lines st').1,
         (main_loop lines st').2)
    | (out, Halt _ e) => (prompt_lines st0 ++ out, e)
    end.
Proof.
  intros Hterm Hline%String.eqb_neq. simpl. rewrite Hterm, Hline.
  destruct (process_tokens _ st0 _) as [out [st'|st' e]]; [|done].
  by destruct (main_loop lines st').
Qed.

(** *** A number that [int] cannot read *)

(** C8. A digit token that [int] cannot read (more than 4300 digits, or a
    digit that is not a decimal digit) gets no warning and is not skipped:
    where the loop reads it as an index, after a seed and with a checklist
    on display, [int(tok)] raises; the tokens after it in the batch are
    never processed, and the run of [main] stops there with [ValueError],
    whatever lines of input were still to come. *)
Theorem int_error_is_fatal st0 line lines pre tok post out st :
  termination st0 = None ->
  normalize_input line ≠ "done" ->
  tokenize (normalize_input line) = pre ++ tok :: post ->
  process_tokens (next_syms st0) st0 pre = (out, Next st) ->
  isdigit tok = true -> selected st ≠ [] -> next_syms st0 ≠ [] ->
  int tok = None ->
  token_step (next_syms st0) st tok = ([], Halt st ValueError) ∧
  process_tokens (next_syms st0) st (tok :: post)
  = ([], Halt st ValueError) ∧
  main_loop (line :: lines) st0 = (prompt_lines st0 ++ out, ValueError).
Proof.
  intros Hterm Hline Htok Hpre Hdig Hsel Hns Hint.
  assert (Hstep : token_step (next_syms st0) st tok
                  = ([], Halt st ValueError)).
  { unfold token_step, resolve. rewrite Hdig, Hint.
    by rewrite !bool_decide_eq_true_2 by done. }
  assert (Hrest : process_tokens (next_syms st0) st (tok :: post)
                  = ([], Halt st ValueError)).
  { simpl. by rewrite Hstep. }
  split_and!; [done|done|].
  rewrite (main_loop_round _ _ _ Hterm Hline), Htok.
  rewrite (process_tokens_app _ _ _ (tok :: post) _ _ Hpre), Hrest.
  by rewrite app_nil_r.
Qed.

(** *** Tokens that only warn *)

(** X22. A numeric token that [int] can read and that is out of the range
    of the checklist, and a token that stands for a symptom already
    selected, each print one warning and leave the selection and the pool
    as they are; the tokens after it in the batch are processed as if it
    had not been there. *)
Theorem warnings_are_local ns st tok rest :
  (out_of_range ns st tok ->
     token_step ns st tok = ([InvalidNumber tok], Next st) ∧
     process_tokens ns st (tok :: rest)
     = (InvalidNumber tok :: (process_tokens ns st rest).1,
        (process_tokens ns st rest).2)) ∧
  (∀ sym, resolve ns st tok = Sym sym -> sym ∈ selected st ->
     token_step ns st tok = ([AlreadyAdded sym], Next st) ∧
     process_tokens ns st (tok :: rest)
     = (AlreadyAdded sym :: (process_tokens ns st rest).1,
        (process_tokens ns st rest).2)).
Proof.
  split.
  - intros (Hdig & Hsel & Hns & n & Hint & Hout).
    assert (Hstep : token_step ns st tok = ([InvalidNumber tok], Next st)).
    { unfold token_step, resolve. rewrite Hdig, Hint.
      rewrite !bool_decide_eq_true_2 by done. simpl.
      rewrite bool_decide_eq_false_2; [done|lia]. }
    split; [done|]. simpl. rewrite Hstep.
    by destruct (process_tokens ns st rest).
  - intros sym Hres Hin.
    assert (Hstep : token_step ns st tok = ([AlreadyAdded sym], Next st)).
    { unfold token_step, apply_symptom. rewrite Hres.
      destruct (selected st) as [|s0 sel] eqn:Esel.
      - by apply elem_of_nil in Hin.
      - by rewrite decide_True. }
    split; [done|]. simpl. rewrite Hstep.
    by destruct (process_tokens ns st rest).
Qed.

(** *** Numbers within a batch *)


(** *** Stopping at once *)

(** C10. When the first line typed is "done" (in any case, with any white
    space around it), the run prints the first prompt and then the final
    shortlist with no names, and returns normally. *)
Theorem done_at_first_prompt line lines :
  normalize_input line = "done" ->
  main (line :: lines) = ([Banner; Prompt true; FinalShortlist []], Return).
Proof.
  intros Hdone. unfold main. simpl. by rewrite Hdone.
Qed.

End Engine.


(** ** More on the engine *)

(** *** How the run ends on its own *)

Lemma checklist_empty_all_selected st d s :
  next_syms st = [] -> d ∈ remaining st -> s ∈ symptoms d ->
  s ∈ selected st.
Proof.
  intros Hns Hd Hs. destruct (decide (s ∈ selected st)) as [|Hn]; [done|].
  assert (H : s ∈ next_syms st).
  { apply next_syms_elem_of, unseen_spec. eauto. }
  rewrite Hns in H. by apply elem_of_nil in H.
Qed.

(** X18. When the loop stops by itself, something is selected, every symptom
    that a remaining candidate lists has been selected, and the message is
    the diagnosis of the only candidate or the list of two or more. *)
Theorem own_termination st m :
  termination st = Some m ->
  selected st ≠ [] ∧
  (∀ d s, d ∈ remaining st -> s ∈ symptoms d -> s ∈ selected st) ∧
  ((∃ d, remaining st = [d] ∧ m = FinalDiagnosis (name d)) ∨
   ((2 ≤ length (remaining st))%nat ∧
    m = UnableToNarrow (name <$> remaining st))).
Proof.
  unfold termination.
  destruct (bool_decide (next_syms st = [])) eqn:Ens;
    [|by rewrite !andb_false_r, ?andb_false_l].
  destruct (bool_decide (selected st ≠ [])) eqn:Esel;
    [|by rewrite !andb_false_r].
  apply bool_decide_eq_true in Ens, Esel. rewrite !andb_true_r.
  intros H. split_and!; [done|by eauto using checklist_empty_all_selected|].
  revert H. destruct (remaining st) as [|d [|d' ds]] eqn:Erem; simpl.
  - done.
  - intros [= <-]. left. eauto.
  - intros [= <-]. right. split; [lia|done].
Qed.

Lemma own_termination_cases st m :
  termination st = Some m ->
  (∃ d, m = FinalDiagnosis d) ∨ m = UnableToNarrow (name <$> remaining st).
Proof.
  unfold termination.
  destruct (_ && _ && _).
  - destruct (remaining st); [done|]. intros [= <-]. eauto.
  - destruct (_ && _ && _); [|done]. intros [= <-]. by right.
Qed.

(** ** Tokens *)

Lemma mem_cons a c s : Str.mem a s = true -> Str.mem a (String c s) = true.
Proof. simpl. intros ->. apply orb_true_r. Qed.


Lemma word_of_cons c s w : word_of s w -> word_of (String c s) w.
Proof.
  intros [Hne Hw]. split; [done|]. intros a Ha.
  destruct (Hw a Ha) as [? ?]. split; [done|]. by apply mem_cons.
Qed.

Lemma word_of_single c s :
  Char.is_space c = false -> word_of (String c s) (String c "").
Proof.
  intros Hc. split; [done|]. intros a. simpl. rewrite orb_false_r.
  intros Ha. apply Ascii.eqb_eq in Ha as <-. split; [done|].
  by rewrite Ascii.eqb_refl.
Qed.

Lemma word_of_extend c s w :
  Char.is_space c = false -> word_of s w ->
  word_of (String c s) (String c w).
Proof.
  intros Hc [Hne Hw]. split; [done|]. intros a. simpl.
  intros [Ha|Ha]%orb_true_iff.
  - apply Ascii.eqb_eq in Ha as <-. by rewrite Ascii.eqb_refl.
  - destruct (Hw a Ha) as [? ->]. by rewrite orb_true_r.
Qed.

Lemma split_ws_words s : Forall (word_of s) (Str.split_ws s).
Proof.
  induction s as [|c s IH]; [constructor|].
  assert (Hweak : Forall (word_of (String c s)) (Str.split_ws s)).
  { eapply Forall_impl; [exact IH|]. intros w. apply word_of_cons. }
  simpl. destruct (Char.is_space c) eqn:Ec; [done|].
  destruct s as [|c' s'].
  - constructor; [by apply word_of_single|constructor].
  - destruct (Char.is_space c') eqn:Ec'.
    + constructor; [by apply word_of_single|done].
    + destruct (Str.split_ws (String c' s')) as [|w ws] eqn:Ews.
      * constructor; [by apply word_of_single|constructor].
      * apply Forall_cons in IH as [Hw _]. apply Forall_cons in Hweak as [_ Hws].
        constructor; [by apply word_of_extend|done].
Qed.

Lemma replace_comma_mem s :
  Str.mem "," (Str.replace_char "," " " s) = false.
Proof.
  induction s as [|c s IH]; [done|]. simpl. rewrite IH, orb_false_r.
  destruct (Ascii.eqb c ",") eqn:E; [done|exact E].
Qed.

Lemma replace_comma_lower s a :
  Str.mem a (Str.replace_char "," " " (Str.lower s)) = true ->
  Char.lower a = a.
Proof.
  induction s as [|c s IH]; [done|]. simpl.
  intros [Ha|Ha]%orb_true_iff; [|by apply IH].
  apply Ascii.eqb_eq in Ha as <-.
  destruct (Ascii.eqb (Char.lower c) ","); [done|apply lower_idem].
Qed.

Lemma lower_fixed w : (∀ a, Str.mem a w = true -> Char.lower a = a) ->
  Str.lower w = w.
Proof.
  induction w as [|c w IH]; [done|]. intros H. simpl. f_equal.
  - apply H. simpl. by rewrite Ascii.eqb_refl.
  - apply IH. intros a Ha. apply H. by apply mem_cons.
Qed.

(** X20. Every token of a line is a non-empty word in lower case without
    white space or comma. *)
Theorem tokens_wellformed line tok :
  tok ∈ tokenize (normalize_input line) ->
  tok ≠ "" ∧ Str.mem "," tok = false ∧
  (∀ a, Str.mem a tok = true -> Char.is_space a = false) ∧
  Str.lower tok = tok.
Proof.
  unfold tokenize, normalize_input. intros Hin.
  pose proof (split_ws_words
                (Str.replace_char "," " "
                   (Str.lower (Str.strip Char.is_space line)))) as Hall.
  rewrite Forall_forall in Hall. destruct (Hall _ Hin) as [Hne Hw].
  split_and!; [done| | |].
  - destruct (Str.mem "," tok) eqn:E; [|done].
    destruct (Hw _ E) as [_ H]. by rewrite replace_comma_mem in H.
  - intros a Ha. by destruct (Hw a Ha).
  - apply lower_fixed. intros a Ha. destruct (Hw a Ha) as [_ H].
    by eapply replace_comma_lower.
Qed.


Section EngineMore.

Variable wiki_search : string -> nat -> option (list string).
Variable fetch_page : string -> option string.
Variable BeautifulSoup : string -> option soup.
Variable isdigit : string -> bool.
Variable int : string -> option Z.

Local Abbreviation search_candidate_diseases :=
  (search_candidate_diseases wiki_search fetch_page BeautifulSoup).
Local Abbreviation extract_symptoms_from_infobox :=
  (extract_symptoms_from_infobox BeautifulSoup).
Local Abbreviation apply_symptom :=
  (apply_symptom wiki_search fetch_page BeautifulSoup).
Local Abbreviation token_step :=
  (token_step wiki_search fetch_page BeautifulSoup isdigit int).
Local Abbreviation process_tokens :=
  (process_tokens wiki_search fetch_page BeautifulSoup isdigit int).
Local Abbreviation main_loop :=
  (main_loop wiki_search fetch_page BeautifulSoup isdigit int).
Local Abbreviation reachable :=
  (reachable wiki_search fetch_page BeautifulSoup isdigit int).
Local Abbreviation pool_exact :=
  (pool_exact wiki_search fetch_page BeautifulSoup).
Local Abbreviation page_symptoms :=
  (page_symptoms fetch_page BeautifulSoup).
Local Abbreviation resolve := (resolve isdigit int).

(** *** The pool builder *)

Lemma pool_of_titles titles :
  let pool := title ← titles;
              match fetch_page title with
              | Some html =>
                  match extract_symptoms_from_infobox html with
                  | Some syms => [{| name := title; symptoms := syms |}]
                  | None => []
                  end
              | None => []
              end in
  name <$> pool = filter (fun t => is_Some (page_symptoms t)) titles ∧
  ∀ d, d ∈ pool -> page_symptoms (name d) = Some (symptoms d).
Proof.
  induction titles as [|t titles [IH1 IH2]]; simpl.
  - split; [done|]. intros d Hd. by apply elem_of_nil in Hd.
  - rewrite filter_cons.
    destruct (decide (is_Some (page_symptoms t))) as [[syms Hs]|Hn].
    + assert (Hs' := Hs). unfold page_symptoms in Hs.
      destruct (fetch_page t) as [html|]; [|done]. simpl in Hs.
      rewrite Hs. simpl. split; [by f_equal|].
      intros d [->|Hd]%elem_of_cons; [exact Hs'|by apply IH2].
    + assert (Hnil : match fetch_page t with
                     | Some html =>
                         match extract_symptoms_from_infobox html with
                         | Some syms => [{| name := t; symptoms := syms |}]
                         | None => []
                         end
                     | None => []
                     end = []).
      { unfold page_symptoms in Hn.
        destruct (fetch_page t) as [html|]; [|done]. simpl in Hn.
        destruct (extract_symptoms_from_infobox html); [|done].
        exfalso. eauto. }
      rewrite Hnil. done.
Qed.

(** X14. The pool has one candidate for each title of the search whose
    page could be fetched and parsed, in the order of the search; a page
    for which the fetch or the parser raises is skipped.  Each candidate
    carries the symptoms extracted from its own page, whether or not they
    include the symptom searched for.  When the search itself fails, so
    does the builder. *)
Theorem pool_builder_spec symptom limit :
  match search_candidate_diseases symptom limit with
  | None => wiki_search symptom limit = None
  | Some pool =>
      ∃ titles, wiki_search symptom limit = Some titles ∧
        name <$> pool = filter (fun t => is_Some (page_symptoms t)) titles ∧
        (length pool ≤ length titles)%nat ∧
        ∀ d, d ∈ pool -> page_symptoms (name d) = Some (symptoms d)
  end.
Proof.
  unfold search_candidate_diseases.
  destruct (wiki_search symptom limit) as [titles|]; simpl; [|done].
  exists titles. destruct (pool_of_titles titles) as [H1 H2].
  split_and!; [done|exact H1| |exact H2].
  rewrite <- (length_fmap name), H1. apply length_filter.
Qed.

(** *** The selection *)

Lemma apply_symptom_selected st sym out f :
  apply_symptom st sym = (out, f) ->
  selected (flow_state f) = selected st ∨
  ((sym ∉ selected st) ∧ selected (flow_state f) = selected st ++ [sym]).
Proof.
  intros Hstep. destruct (decide (selected st = [])) as [Hnil|Hsel].
  - right. rewrite (apply_symptom_seed _ _ _ _ _ _ _ Hnil Hstep), Hnil.
    split; [apply not_elem_of_nil|done].
  - revert Hstep. unfold apply_symptom.
    destruct (selected st) as [|s0 sel] eqn:Esel; [done|].
    destruct (decide (sym ∈ s0 :: sel)) as [Hin|Hin].
    + intros [= <- <-]. left. done.
    + destruct (filter (keeps sym) (remaining st));
        intros [= <- <-]; right; done.
Qed.

Lemma token_step_selected ns st tok out f :
  token_step ns st tok = (out, f) ->
  selected (flow_state f) = selected st ∨
  ∃ sym, (sym ∉ selected st) ∧ selected (flow_state f) = selected st ++ [sym].
Proof.
  unfold token_step. destruct (resolve ns st tok) as [sym| |].
  - intros H. destruct (apply_symptom_selected _ _ _ _ H); eauto.
  - intros [= <- <-]. by left.
  - intros [= <- <-]. by left.
Qed.

(** X15. A batch of tokens only appends to the selection, and never a
    symptom that is already in it. *)
Theorem selection_grows ns st tokens out f :
  process_tokens ns st tokens = (out, f) ->
  selected st `prefix_of` selected (flow_state f) ∧
  (NoDup (selected st) -> NoDup (selected (flow_state f))).
Proof.
  revert st out. induction tokens as [|tok tokens IH]; intros st out; simpl.
  - by intros [= <- <-].
  - destruct (token_step ns st tok) as [o f1] eqn:Estep.
    assert (H1 : selected st `prefix_of` selected (flow_state f1) ∧
                 (NoDup (selected st) -> NoDup (selected (flow_state f1)))).
    { destruct (token_step_selected _ _ _ _ _ Estep) as [->|(sym & Hs & ->)].
      - done.
      - split; [by apply prefix_app_r|]. intros Hnd. apply NoDup_app.
        split_and!; [done| |apply NoDup_singleton].
        by intros x Hx ->%list_elem_of_singleton. }
    destruct f1 as [st1|st1 e]; [|by intros [= <- <-]].
    destruct (process_tokens ns st1 tokens) as [o1 f2] eqn:E2.
    intros [= <- <-]. destruct (IH _ _ E2) as [H2 H3]. simpl in H1.
    split; [by etrans; [apply H1|]|]. intros Hnd. by apply H3, H1.
Qed.

(** *** The pool while the run goes on *)

Lemma apply_symptom_alive st sym out f :
  pool_alive (Next st) -> apply_symptom st sym = (out, f) -> pool_alive f.
Proof.
  unfold apply_symptom. intros Hst.
  destruct (selected st) as [|s0 sel] eqn:Esel; cbv zeta.
  - destruct (search_candidate_diseases sym 100) as [[|d pool]|].
    + by intros [= <- <-].
    + intros [= <- <-]. simpl. by intros _.
    + by intros [= <- <-].
  - destruct (decide (sym ∈ s0 :: sel)).
    + by intros [= <- <-].
    + destruct (filter (keeps sym) (remaining st)) eqn:E.
      * by intros [= <- <-].
      * intros [= <- <-]. simpl. by intros _.
Qed.

Lemma token_step_alive ns st tok out f :
  pool_alive (Next st) -> token_step ns st tok = (out, f) -> pool_alive f.
Proof.
  unfold token_step. intros Hst.
  destruct (resolve ns st tok).
  - by apply apply_symptom_alive.
  - by intros [= <- <-].
  - by intros [= <- <-].
Qed.

Lemma process_tokens_alive ns st tokens out f :
  pool_alive (Next st) -> process_tokens ns st tokens = (out, f) ->
  pool_alive f.
Proof.
  revert st out. induction tokens as [|tok tokens IH]; intros st out Hst.
  - by intros [= <- <-].
  - simpl. destruct (token_step ns st tok) as [o f1] eqn:Estep.
    pose proof (token_step_alive _ _ _ _ _ Hst Estep) as H1.
    destruct f1 as [st1|st1 e]; [|by intros [= <- <-]].
    destruct (process_tokens ns st1 tokens) as [o1 f2] eqn:E2.
    intros [= <- <-]. by eapply IH.
Qed.

Lemma reachable_alive f : reachable f -> pool_alive f.
Proof.
  induction 1 as [|st tokens out f _ IH _ Hrun]; [by simpl|].
  by eapply process_tokens_alive.
Qed.

Lemma termination_None_checklist st :
  selected st ≠ [] -> remaining st ≠ [] -> termination st = None ->
  next_syms st ≠ [].
Proof.
  intros Hsel Hrem Hterm Hns. revert Hterm. unfold termination.
  rewrite Hns. rewrite (bool_decide_eq_true_2 (selected st ≠ [])) by done.
  rewrite (bool_decide_eq_true_2 (remaining st ≠ [])) by done. simpl.
  rewrite andb_true_r. destruct (remaining st) as [|d ds]; [done|].
  by destruct (bool_decide (length (d :: ds) = 1%nat)).
Qed.

(** X16. Once a symptom is selected, a run that has not stopped has a pool
    that is not empty, and at every prompt that follows the checklist is
    not empty either, so numbers are always read as positions in it; a run
    stopped by [sys.exit(1)] has an empty pool. *)
Theorem running_pool_nonempty f :
  reachable f ->
  match f with
  | Next st =>
      selected st ≠ [] ->
      remaining st ≠ [] ∧ (termination st = None -> next_syms st ≠ [])
  | Halt st SysExit1 => remaining st = []
  | Halt _ _ => True
  end.
Proof.
  intros Hf%reachable_alive. destruct f as [st|st []]; simpl in *; try done.
  intros Hsel. split; [by apply Hf|].
  apply termination_None_checklist; auto.
Qed.

(** *** What the pool is *)

Lemma consistent_nil d : consistent [] d.
Proof. right. constructor. Qed.

Lemma consistent_snoc rest sym d :
  consistent (rest ++ [sym]) d ↔ keeps sym d ∧ consistent rest d.
Proof.
  unfold consistent, keeps. rewrite Forall_app, Forall_singleton. tauto.
Qed.

Lemma filter_all {A} (P : A -> Prop) `{!∀ x, Decision (P x)} (l : list A) :
  (∀ x, P x) -> filter P l = l.
Proof.
  intros HP. induction l as [|x l IH]; [done|].
  rewrite filter_cons, decide_True by done. by f_equal.
Qed.


Lemma apply_symptom_exact st sym out f :
  pool_exact st -> apply_symptom st sym = (out, f) ->
  pool_exact (flow_state f).
Proof.
  unfold apply_symptom. intros Hst.
  destruct (selected st) as [|s0 sel] eqn:Esel; cbv zeta.
  - destruct (search_candidate_diseases sym 100) as [pool|] eqn:Es.
    + assert (Hp : pool_exact {| selected := [sym]; remaining := pool |}).
      { intros s1 rest pool0 [= <- <-] Hs. simpl.
        rewrite Es in Hs. injection Hs as <-.
        symmetry. apply filter_all, consistent_nil. }
      destruct pool; by intros [= <- <-].
    + intros [= <- <-] s1 rest pool0 [= <- <-] Hs. congruence.
  - destruct (decide (sym ∈ s0 :: sel)).
    + intros [= <- <-]. simpl. intros s1 rest pool0 Hsel. apply Hst.
      by rewrite <- Hsel.
    + assert (Hp : pool_exact
                {| selected := (s0 :: sel) ++ [sym];
                   remaining := filter (keeps sym) (remaining st) |}).
      { intros s1 rest pool0 [= <- <-] Hs. simpl.
        rewrite (Hst s0 sel pool0 Esel Hs), list_filter_filter.
        apply list_filter_iff. intros d. by rewrite consistent_snoc. }
      destruct (filter (keeps sym) (remaining st)); by intros [= <- <-].
Qed.

Lemma process_tokens_exact ns st tokens out f :
  pool_exact st -> process_tokens ns st tokens = (out, f) ->
  pool_exact (flow_state f).
Proof.
  revert st out. induction tokens as [|tok tokens IH]; intros st out Hst.
  - by intros [= <- <-].
  - simpl. destruct (token_step ns st tok) as [o f1] eqn:Estep.
    assert (H1 : pool_exact (flow_state f1)).
    { revert Estep. unfold token_step.
      destruct (resolve ns st tok);
        [by apply apply_symptom_exact|by intros [= <- <-]..]. }
    destruct f1 as [st1|st1 e]; [|by intros [= <- <-]].
    destruct (process_tokens ns st1 tokens) as [o1 f2] eqn:E2.
    intros [= <- <-]. by eapply IH.
Qed.

(** X17. At any point of a run the pool is exactly the seed pool (what the
    search returned for the first symptom) without the candidates that
    list symptoms but miss one selected after the first: nothing else is
    dropped, nothing is added, and the order of the search is kept. *)
Theorem pool_is_filtered_seed f s0 rest pool0 :
  reachable f ->
  selected (flow_state f) = s0 :: rest ->
  search_candidate_diseases s0 100 = Some pool0 ->
  remaining (flow_state f) = filter (consistent rest) pool0.
Proof.
  intros Hf. revert s0 rest pool0.
  change (pool_exact (flow_state f)).
  induction Hf as [|st tokens out f _ IH _ Hrun]; [done|].
  by eapply process_tokens_exact.
Qed.

(** *** The last line of a run *)

Lemma token_step_halt ns st tok out st' e :
  token_step ns st tok = (out, Halt st' e) ->
  (e = RequestError ∨ e = ValueError) ∨
  (e = SysExit1 ∧ ∃ m, last out = Some m ∧ closing e m).
Proof.
  unfold token_step, apply_symptom.
  destruct (resolve ns st tok) as [sym| |]; [|done|].
  - destruct (selected st) as [|s0 sel]; cbv zeta.
    + destruct (search_candidate_diseases sym 100) as [[|d pool]|];
        intros [= <- <- <-]; [right|left]; eauto.
      split; [done|]. by eexists.
    + destruct (decide (sym ∈ s0 :: sel)); [done|].
      destruct (filter (keeps sym) (remaining st)); intros [= <- <- <-].
      right. split; [done|]. by eexists.
  - intros [= <- <- <-]. left. by right.
Qed.

Lemma process_tokens_halt ns st tokens out st' e :
  process_tokens ns st tokens = (out, Halt st' e) ->
  (e = RequestError ∨ e = ValueError) ∨
  (e = SysExit1 ∧ ∃ m, last out = Some m ∧ closing e m).
Proof.
  revert st out. induction tokens as [|tok tokens IH]; intros st out; simpl.
  - done.
  - destruct (token_step ns st tok) as [o [st1|st1 e1]] eqn:Estep.
    + destruct (process_tokens ns st1 tokens) as [o1 f1] eqn:E1.
      intros [= <- ->]. destruct (IH _ _ E1) as [?|(-> & m & Hm & Hc)];
        [by left|right].
      split; [done|]. exists m. split; [|done].
      rewrite last_app, Hm. done.
    + intros [= <- <- <-]. by eapply token_step_halt.
Qed.

(** X19. Unless an exception escapes (the search request fails, or [int]
    raises on a token), every run ends with a line that fits the way it
    ends: a diagnosis, a list or a shortlist when it returns; "no pages
    found" or "no diseases match" when it exits with status 1; a prompt
    when the input runs out. *)
Theorem run_closing_line lines st out e :
  main_loop lines st = (out, e) -> e ≠ RequestError -> e ≠ ValueError ->
  ∃ m, last out = Some m ∧ closing e m.
Proof.
  revert st out. induction lines as [|line lines IH]; intros st out; simpl.
  - destruct (termination st) as [m|] eqn:Et.
    + intros [= <- <-] _ _. exists m. split; [done|].
      by destruct (own_termination_cases _ _ Et) as [[d ->]| ->].
    + intros [= <- <-] _ _. eexists. rewrite last_snoc. done.
  - destruct (termination st) as [m|] eqn:Et.
    { intros [= <- <-] _ _. exists m. split; [done|].
      by destruct (own_termination_cases _ _ Et) as [[d ->]| ->]. }
    destruct (String.eqb (normalize_input line) "done").
    { intros [= <- <-] _ _. eexists. rewrite last_snoc.
      split; [done|]. unfold final_report.
      by destruct (remaining st) as [|d [|??]]. }
    destruct (process_tokens (next_syms st) st _) as [o [st'|st' e']] eqn:Ep.
    + destruct (main_loop lines st') as [o' e''] eqn:Em.
      intros [= <- <-] Hne Hne'.
      destruct (IH _ _ Em Hne Hne') as (m & Hm & Hc).
      exists m. split; [|done].
      rewrite !app_assoc, last_app, last_cons, Hm. done.
    + intros [= <- <-] Hne Hne'.
      destruct (process_tokens_halt _ _ _ _ _ _ Ep)
        as [[?|?]|(-> & m & Hm & Hc)]; [done|done|].
      exists m. split; [|done]. by rewrite last_app, Hm.
Qed.

(** *** The order of two new symptoms *)

Lemma resolve_literal ns st tok :
  isdigit tok = false -> resolve ns st tok = Sym tok.
Proof. unfold resolve. by intros ->. Qed.

Lemma token_step_fresh ns st tok :
  isdigit tok = false -> selected st ≠ [] -> tok ∉ selected st ->
  ∃ out f, token_step ns st tok = (out, f) ∧
    flow_state f = {| selected := selected st ++ [tok];
                      remaining := filter (keeps tok) (remaining st) |} ∧
    (f = Next (flow_state f) ∨ remaining (flow_state f) = []).
Proof.
  intros Hd Hsel Hfresh. unfold token_step, apply_symptom.
  rewrite (resolve_literal _ _ _ Hd).
  destruct (selected st) as [|s0 sel] eqn:Esel; [done|].
  rewrite decide_False by done. cbv zeta.
  destruct (filter (keeps tok) (remaining st)) as [|d ds] eqn:E.
  - do 2 eexists. split; [done|]. simpl. split; [done|by right].
  - do 2 eexists. split; [done|]. simpl. split; [done|by left].
Qed.

Lemma filter_keeps_comm a b (pool : list candidate) :
  filter (keeps a) (filter (keeps b) pool)
  = filter (keeps b) (filter (keeps a) pool).
Proof.
  rewrite !list_filter_filter. apply list_filter_iff. intros d. tauto.
Qed.

Lemma two_fresh_tokens ns st a b :
  isdigit a = false -> isdigit b = false ->
  selected st ≠ [] -> a ∉ selected st -> b ∉ selected st -> a ≠ b ->
  remaining (flow_state (process_tokens ns st [a; b]).2)
  = filter (keeps b) (filter (keeps a) (remaining st)).
Proof.
  intros Ha Hb Hsel Hfa Hfb Hab. simpl.
  destruct (token_step_fresh ns st a Ha Hsel Hfa)
    as (o1 & f1 & -> & Hst1 & Hf1).
  destruct Hf1 as [Hf1|Hf1].
  - rewrite Hf1, Hst1.
    edestruct (token_step_fresh ns
                 {| selected := selected st ++ [a];
                    remaining := filter (keeps a) (remaining st) |} b)
      as (o2 & f2 & -> & Hst2 & _); [done|simpl|simpl|].
    + by destruct (selected st).
    + intros [?| ->%list_elem_of_singleton]%elem_of_app; done.
    + destruct f2; simpl in *; by rewrite Hst2.
  - assert (Hnil : filter (keeps a) (remaining st) = []).
    { by rewrite Hst1 in Hf1. }
    rewrite Hnil. destruct f1 as [st1|st1 e1]; simpl in *.
    + destruct (token_step ns st1 b) as [o2 f2] eqn:E2.
      assert (Hr : remaining (flow_state f2) = []).
      { destruct (token_step_later wiki_search fetch_page BeautifulSoup
                    isdigit int ns st1 b o2 f2) as [->|[sym ->]];
          [by rewrite Hst1; destruct (selected st)|done|done|].
        simpl. by rewrite Hf1. }
      by destruct f2.
    + done.
Qed.

(** X21. Two new symptoms typed as words in one batch leave the same pool
    whichever comes first. *)
Theorem selection_order_irrelevant ns st a b :
  isdigit a = false -> isdigit b = false ->
  selected st ≠ [] -> a ∉ selected st -> b ∉ selected st ->
  remaining (flow_state (process_tokens ns st [a; b]).2)
  = remaining (flow_state (process_tokens ns st [b; a]).2).
Proof.
  intros Ha Hb Hsel Hfa Hfb. destruct (decide (a = b)) as [->|Hab]; [done|].
  rewrite (two_fresh_tokens ns st a b), (two_fresh_tokens ns st b a) by done.
  apply filter_keeps_comm.
Qed.

End EngineMore.

(** ** Instances on the example encyclopedia *)

(** Refute a decidable hypothesis by evaluating its decision procedure. *)
Ltac refute_by_decide H :=
  exfalso; revert H;
  match goal with
  | |- ?P -> False =>
      apply (bool_decide_eq_false_1 P); vm_compute; reflexivity
  end.

Local Abbreviation demo_step :=
  (filter_step Demo.wiki_search Demo.fetch_page Demo.BeautifulSoup
     Demo.isdigit Demo.int).
Local Abbreviation demo_reachable :=
  (reachable Demo.wiki_search Demo.fetch_page Demo.BeautifulSoup
     Demo.isdigit Demo.int).
Local Abbreviation demo_tokens :=
  (process_tokens Demo.wiki_search Demo.fetch_page Demo.BeautifulSoup
     Demo.isdigit Demo.int).
Local Abbreviation demo_token_step :=
  (token_step Demo.wiki_search Demo.fetch_page Demo.BeautifulSoup
     Demo.isdigit Demo.int).
Local Abbreviation demo_apply :=
  (apply_symptom Demo.wiki_search Demo.fetch_page Demo.BeautifulSoup).
Local Abbreviation demo_main_loop :=
  (main_loop Demo.wiki_search Demo.fetch_page Demo.BeautifulSoup
     Demo.isdigit Demo.int).
Local Abbreviation demo_main :=
  (main Demo.wiki_search Demo.fetch_page Demo.BeautifulSoup
     Demo.isdigit Demo.int).

Lemma demo_seed_reachable : demo_reachable (Next Demo.seeded).
Proof.
  apply (reach_batch _ _ _ _ _ initial_state ["fever"] [Loaded "fever" 3]).
  - apply reach_init.
  - reflexivity.
  - vm_compute. reflexivity.
Defined.

Lemma demo_narrowed_reachable : demo_reachable (Next Demo.narrowed).
Proof.
  apply (reach_batch _ _ _ _ _ initial_state ["fever"; "chills"]
           [Loaded "fever" 3; Remain "chills" 2]).
  - apply reach_init.
  - reflexivity.
  - vm_compute. reflexivity.
Defined.

Lemma demo_chills_step : demo_step Demo.seeded Demo.narrowed.
Proof.
  split; [discriminate|].
  exists [], "chills", [Remain "chills" 2], (Next Demo.narrowed).
  split; vm_compute; reflexivity.
Defined.

(** The invariant of the data model fails right after the seed: page A is
    in the pool, lists symptoms, and "fever" is not one of them. *)
Lemma pool_invariant_counterexample :
  ¬ (∀ f, demo_reachable f -> pool_invariant (flow_state f)).
Proof.
  intros H. specialize (H _ demo_seed_reachable Demo.A).
  destruct H as [H|H].
  - simpl. by left.
  - discriminate H.
  - specialize (H "fever"). simpl in H.
    assert (Hin : "fever" ∈ ["fever"]) by by left.
    apply H in Hin. by refute_by_decide Hin.
Qed.

Lemma pool_invariant_reachable_witness :
  demo_reachable (Next Demo.narrowed) ∧
  pool_invariant_past_seed Demo.narrowed.
Proof.
  split; [exact demo_narrowed_reachable|].
  exact (pool_invariant_reachable _ _ _ _ _ _ demo_narrowed_reachable).
Defined.

Lemma termination_priority_witness :
  (selected Demo.sole ≠ [] ∧ next_syms Demo.sole = [] ∧
   remaining Demo.sole = [Demo.C] ∧
   demo_main_loop ["rash"] Demo.sole = ([FinalDiagnosis "C"], Return)) ∧
  (selected Demo.tied ≠ [] ∧ next_syms Demo.tied = [] ∧
   remaining Demo.tied ≠ [] ∧ length (remaining Demo.tied) ≠ 1%nat ∧
   demo_main_loop ["rash"] Demo.tied = ([UnableToNarrow ["C"; "D"]], Return)).
Proof.
  split.
  - split_and!; [discriminate|reflexivity|reflexivity|].
    refine (proj1 (termination_priority _ _ _ _ _ ["rash"] Demo.sole _ _)
              Demo.C _); [discriminate|reflexivity|reflexivity].
  - split_and!; [discriminate|reflexivity|discriminate|discriminate|].
    refine (proj2 (termination_priority _ _ _ _ _ ["rash"] Demo.tied _ _) _ _);
      [discriminate|reflexivity|discriminate|discriminate].
Defined.

Lemma pool_monotone_witness :
  rtc demo_step Demo.seeded Demo.narrowed ∧
  remaining Demo.narrowed `sublist_of` remaining Demo.seeded ∧
  (∀ d, d ∈ remaining Demo.narrowed -> d ∈ remaining Demo.seeded) ∧
  (length (remaining Demo.narrowed) ≤ length (remaining Demo.seeded))%nat.
Proof.
  assert (Hrun : rtc demo_step Demo.seeded Demo.narrowed).
  { eapply rtc_l; [exact demo_chills_step|apply rtc_refl]. }
  split; [exact Hrun|].
  exact (pool_monotone _ _ _ _ _ _ _ Hrun).
Defined.

Lemma conservative_retention_witness :
  rtc demo_step Demo.seeded Demo.narrowed ∧
  symptoms Demo.C = [] ∧ Demo.C ∈ remaining Demo.seeded ∧
  Demo.C ∈ remaining Demo.narrowed.
Proof.
  assert (Hrun : rtc demo_step Demo.seeded Demo.narrowed).
  { eapply rtc_l; [exact demo_chills_step|apply rtc_refl]. }
  assert (Hin : Demo.C ∈ remaining Demo.seeded).
  { simpl. do 2 apply list_elem_of_further. apply list_elem_of_here. }
  split_and!; [exact Hrun|reflexivity|exact Hin|].
  exact (conservative_retention _ _ _ _ _ _ _ Demo.C Hrun eq_refl Hin).
Defined.

Lemma demo_checklist : next_syms Demo.seeded = Demo.checklist.
Proof. vm_compute. reflexivity. Defined.

Lemma int_error_is_fatal_witness :
  let line := "fever " +:+ Demo.long_number +:+ " 1" in
  Demo.isdigit Demo.long_number = true ∧
  Demo.int Demo.long_number = None ∧
  tokenize (normalize_input line) = ["fever"; Demo.long_number; "1"] ∧
  demo_tokens Demo.checklist Demo.seeded [Demo.long_number; "1"]
  = ([], Halt Demo.seeded ValueError) ∧
  demo_main_loop [line; "1"; "done"] Demo.seeded
  = ([Checklist Demo.checklist; Prompt false; AlreadyAdded "fever"],
     ValueError).
Proof.
  intros line.
  assert (Hd : Demo.isdigit Demo.long_number = true)
    by (vm_compute; reflexivity).
  assert (Hi : Demo.int Demo.long_number = None)
    by (vm_compute; reflexivity).
  assert (Hterm : termination Demo.seeded = None)
    by (vm_compute; reflexivity).
  assert (Hline : normalize_input line ≠ "done")
    by (vm_compute; discriminate).
  assert (Htok : tokenize (normalize_input line)
                 = ["fever"] ++ Demo.long_number :: ["1"])
    by (vm_compute; reflexivity).
  assert (Hns : next_syms Demo.seeded = Demo.checklist)
    by (vm_compute; reflexivity).
  assert (Hpre : demo_tokens (next_syms Demo.seeded) Demo.seeded ["fever"]
                 = ([AlreadyAdded "fever"], Next Demo.seeded))
    by (vm_compute; reflexivity).
  assert (Hsel : selected Demo.seeded ≠ []) by discriminate.
  assert (Hne : next_syms Demo.seeded ≠ [])
    by (rewrite Hns; discriminate).
  destruct (int_error_is_fatal _ _ _ Demo.isdigit Demo.int
              Demo.seeded line ["1"; "done"] ["fever"] Demo.long_number
              ["1"] _ _ Hterm Hline Htok Hpre Hd Hsel Hne Hi)
    as (_ & Hrest & Hrun).
  split_and!; [exact Hd|exact Hi|exact Htok| |].
  - rewrite <- Hns. exact Hrest.
  - etrans; [exact Hrun|]. vm_compute. reflexivity.
Defined.

Lemma warnings_are_local_witness :
  let ns := Demo.checklist in
  (out_of_range Demo.isdigit Demo.int ns Demo.seeded "9" ∧
   demo_tokens ns Demo.seeded ["9"; "1"]
   = ([InvalidNumber "9"; Remain "chills" 2], Next Demo.narrowed)) ∧
  (resolve Demo.isdigit Demo.int ns Demo.seeded "fever" = Sym "fever" ∧
   "fever" ∈ selected Demo.seeded ∧
   demo_tokens ns Demo.seeded ["fever"; "1"]
   = ([AlreadyAdded "fever"; Remain "chills" 2], Next Demo.narrowed)).
Proof.
  intros ns.
  assert (Hout : out_of_range Demo.isdigit Demo.int ns Demo.seeded "9").
  { split_and!; [reflexivity|discriminate|discriminate|].
    exists 9%Z. split; [reflexivity|]. vm_compute. intros [_ H]. by apply H. }
  assert (Hin : "fever" ∈ selected Demo.seeded) by apply list_elem_of_here.
  assert (Hres : resolve Demo.isdigit Demo.int ns Demo.seeded "fever"
                 = Sym "fever") by (vm_compute; reflexivity).
  split.
  - split; [exact Hout|].
    exact (proj2 (proj1 (warnings_are_local _ _ _ Demo.isdigit Demo.int
                           ns Demo.seeded "9" ["1"]) Hout)).
  - split_and!; [exact Hres|exact Hin|].
    exact (proj2 (proj2 (warnings_are_local _ _ _ Demo.isdigit Demo.int
                           ns Demo.seeded "fever" ["1"]) "fever" Hres Hin)).
Defined.


Lemma done_at_first_prompt_witness :
  normalize_input "  Done " = "done" ∧
  demo_main ["  Done "; "fever"]
  = ([Banner; Prompt true; FinalShortlist []], Return).
Proof.
  split; [reflexivity|].
  exact (done_at_first_prompt _ _ _ _ _ "  Done " ["fever"] eq_refl).
Defined.

(** *** Instances for the normalizer, the extractor and the cache *)

(** One pass removes the citation of "(s[x]ee)" and leaves "(see)", which
    a second pass removes. *)
Lemma clean_text_idempotent_counterexample :
  clean_text "(s[x]ee)" = "(see)" ∧
  clean_text (clean_text "(s[x]ee)") = "" ∧
  ¬ (∀ x, clean_text (clean_text x) = clean_text x).
Proof.
  split_and!; [reflexivity|reflexivity|].
  intros H. specialize (H "(s[x]ee)"). vm_compute in H. discriminate H.
Qed.

Lemma clean_text_idempotent_when_witness :
  let x := " Fever[1] (mild). " in
  clean_text x = "Fever (mild)" ∧
  Re.search Re.see_note (clean_text x) = false ∧
  clean_text (clean_text x) = clean_text x.
Proof.
  intros x.
  assert (H : Re.search Re.see_note (clean_text x) = false)
    by (vm_compute; reflexivity).
  split_and!; [reflexivity|exact H|].
  exact (proj2 (proj1 (clean_text_idempotent_when x)) H).
Defined.



Lemma clean_text_idempotent_without_paren_witness :
  Str.mem "(" "Fever[1]; [2]." = false ∧
  clean_text (clean_text "Fever[1]; [2].") = clean_text "Fever[1]; [2].".
Proof.
  split; [reflexivity|].
  exact (clean_text_idempotent_without_paren "Fever[1]; [2]." eq_refl).
Defined.

Lemma clean_text_fixed_witness :
  Str.mem "[" "sore throat" = false ∧ Str.mem "(" "sore throat" = false ∧
  clean_text "sore throat" = "sore throat".
Proof.
  split_and!; [reflexivity|reflexivity|].
  apply (clean_text_fixed "sore throat" eq_refl eq_refl).
  - by intros c t [= <- <-].
  - intros t c H. apply (rstrip_last trim_char "sore throat" t c).
    exact H.
Defined.

Lemma extract_ignores_text_after_four_witness :
  (4 ≤ length (keep_items len_ok (li_texts Demo.list_cell)))%nat ∧
  extract_from_soup (SymptomsCell Demo.list_cell)
  = extract_from_soup
      (SymptomsCell {| li_texts := li_texts Demo.list_cell;
                       sep_text := "Rash, fever" |}).
Proof.
  assert (H : (4 ≤ length (keep_items len_ok (li_texts Demo.list_cell)))%nat).
  { vm_compute. lia. }
  split; [exact H|].
  exact (extract_ignores_text_after_four _ _ "Rash, fever" H).
Defined.

Lemma extract_keeps_list_items_witness :
  "Cough" ∈ li_texts Demo.list_cell ∧
  len_ok (clean_text "Cough") = true ∧
  "cough" ∈ extract_from_soup (SymptomsCell Demo.list_cell).
Proof.
  assert (Hin : "Cough" ∈ li_texts Demo.list_cell) by apply list_elem_of_here.
  split_and!; [exact Hin|reflexivity|].
  exact (extract_keeps_list_items Demo.list_cell "Cough" Hin eq_refl).
Defined.

Lemma fallback_items_not_boilerplate_witness :
  extract_from_soup (SymptomsCell Demo.prose_cell) = ["fever"; "rash"] ∧
  ("rash" ∉ keep_items len_ok (li_texts Demo.prose_cell)) ∧
  boilerplate "rash" = false.
Proof.
  assert (E : extract_from_soup (SymptomsCell Demo.prose_cell)
              = ["fever"; "rash"]) by (vm_compute; reflexivity).
  assert (Hout : "rash" ∉ keep_items len_ok (li_texts Demo.prose_cell))
    by apply not_elem_of_nil.
  split_and!; [exact E|exact Hout|].
  apply (fallback_items_not_boilerplate Demo.prose_cell "rash"); [|exact Hout].
  rewrite E. apply list_elem_of_further, list_elem_of_here.
Defined.

Lemma demo_write_then_read (fs : Demo.files) path text fs' :
  Demo.write_text fs path text = (true, fs') ->
  Demo.path_exists fs' path = true ∧ Demo.file_text fs' path = Some text.
Proof.
  intros [= <-]. unfold Demo.path_exists, Demo.file_text. simpl.
  rewrite String.eqb_refl. simpl. split; reflexivity.
Defined.

Lemma fetch_page_again_witness :
  let fetch :=
    Cache.fetch_page Demo.files Demo.path_exists Demo.file_text
      Demo.write_text in
  let fs' := [(page_path "Common cold", Demo.page)] in
  fetch Demo.http_get [] "Common cold" = (Some Demo.page, fs') ∧
  Demo.path_exists [] (page_path "Common cold") = false ∧
  universal_newlines Demo.page = String "a" (String Char.newline "b") ∧
  fetch Demo.http_down fs' "Common cold"
  = (Some (String "a" (String Char.newline "b")), fs').
Proof.
  intros fetch fs'.
  assert (H : fetch Demo.http_get [] "Common cold" = (Some Demo.page, fs'))
    by (vm_compute; reflexivity).
  split_and!; [exact H|reflexivity|reflexivity|].
  exact (proj1 (fetch_page_again Demo.files Demo.path_exists Demo.file_text
                  Demo.write_text demo_write_then_read
                  Demo.http_get Demo.http_down
                  [] "Common cold" Demo.page fs' H)).
Defined.

(** *** Instances for the engine *)

Lemma selection_grows_witness :
  demo_tokens Demo.checklist Demo.seeded ["1"; "fever"]
  = ([Remain "chills" 2; AlreadyAdded "fever"], Next Demo.narrowed) ∧
  selected Demo.seeded `prefix_of` selected Demo.narrowed ∧
  (NoDup (selected Demo.seeded) -> NoDup (selected Demo.narrowed)).
Proof.
  assert (H : demo_tokens Demo.checklist Demo.seeded ["1"; "fever"]
              = ([Remain "chills" 2; AlreadyAdded "fever"],
                 Next Demo.narrowed)) by (vm_compute; reflexivity).
  split; [exact H|].
  exact (selection_grows _ _ _ _ _ _ _ _ _ _ H).
Defined.

Lemma running_pool_nonempty_witness :
  demo_reachable (Next Demo.seeded) ∧
  (selected Demo.seeded ≠ [] ->
   remaining Demo.seeded ≠ [] ∧
   (termination Demo.seeded = None -> next_syms Demo.seeded ≠ [])).
Proof.
  split; [exact demo_seed_reachable|].
  exact (running_pool_nonempty _ _ _ _ _ _ demo_seed_reachable).
Defined.

Lemma pool_is_filtered_seed_witness :
  demo_reachable (Next Demo.narrowed) ∧
  search_candidate_diseases Demo.wiki_search Demo.fetch_page
    Demo.BeautifulSoup "fever" 100 = Some [Demo.A; Demo.B; Demo.C] ∧
  remaining Demo.narrowed
  = filter (consistent ["chills"]) [Demo.A; Demo.B; Demo.C].
Proof.
  assert (Hs : search_candidate_diseases Demo.wiki_search Demo.fetch_page
                 Demo.BeautifulSoup "fever" 100
               = Some [Demo.A; Demo.B; Demo.C]) by (vm_compute; reflexivity).
  split_and!; [exact demo_narrowed_reachable|exact Hs|].
  exact (pool_is_filtered_seed _ _ _ _ _ _ "fever" ["chills"] _
           demo_narrowed_reachable eq_refl Hs).
Defined.

Lemma own_termination_witness :
  termination Demo.sole = Some (FinalDiagnosis "C") ∧
  (∀ d s, d ∈ remaining Demo.sole -> s ∈ symptoms d ->
          s ∈ selected Demo.sole).
Proof.
  assert (H : termination Demo.sole = Some (FinalDiagnosis "C"))
    by (vm_compute; reflexivity).
  split; [exact H|].
  exact (proj1 (proj2 (own_termination _ _ H))).
Defined.

Lemma run_closing_line_witness :
  demo_main_loop ["fever"; "done"] initial_state
  = ([Prompt true; Loaded "fever" 3; Blank; Checklist Demo.checklist;
      Prompt false; FinalShortlist ["A"; "B"; "C"]], Return) ∧
  ∃ m, last [Prompt true; Loaded "fever" 3; Blank; Checklist Demo.checklist;
             Prompt false; FinalShortlist ["A"; "B"; "C"]] = Some m ∧
       closing Return m.
Proof.
  assert (H : demo_main_loop ["fever"; "done"] initial_state
              = ([Prompt true; Loaded "fever" 3; Blank;
                  Checklist Demo.checklist; Prompt false;
                  FinalShortlist ["A"; "B"; "C"]], Return))
    by (vm_compute; reflexivity).
  split; [exact H|].
  apply (run_closing_line _ _ _ _ _ _ _ _ _ H); discriminate.
Defined.

Lemma tokens_wellformed_witness :
  tokenize (normalize_input "  Sore, THROAT 2 ") = ["sore"; "throat"; "2"] ∧
  "throat" ≠ "" ∧ Str.mem "," "throat" = false ∧
  (∀ a, Str.mem a "throat" = true -> Char.is_space a = false) ∧
  Str.lower "throat" = "throat".
Proof.
  assert (E : tokenize (normalize_input "  Sore, THROAT 2 ")
              = ["sore"; "throat"; "2"]) by (vm_compute; reflexivity).
  split; [exact E|].
  apply (tokens_wellformed "  Sore, THROAT 2 " "throat").
  rewrite E. apply list_elem_of_further, list_elem_of_here.
Defined.

Lemma selection_order_irrelevant_witness :
  remaining (flow_state
               (demo_tokens Demo.checklist Demo.seeded ["chills"; "nausea"]).2)
  = remaining (flow_state
               (demo_tokens Demo.checklist Demo.seeded ["nausea"; "chills"]).2).
Proof.
  apply selection_order_irrelevant; [reflexivity|reflexivity|discriminate| |].
  - intros H. refute_by_decide H.
  - intros H. refute_by_decide H.
Defined.
